(** * vuex-i18n: the resolution engine, embedded and verified

    A shallow embedding of the translation engine of [vuex-i18n]
    ([dist/vuex-i18n.es.js], [src/vuex-i18n-plugin.js]): the store module
    with its mutations, [flattenTranslations], the plural rules of
    [plurals.getTranslationIndex], the renderer built by [renderFn], and the
    lookups [translateInLanguage] and [checkKeyExists].

    JavaScript values are data: [undefined], [null], booleans, numbers,
    strings, arrays and plain objects.  A call either returns or throws a
    [TypeError]; the console notices and the not-found callback it fires on
    the way are collected in order. *)

From Stdlib Require Import ZArith QArith String Ascii List Bool Lia.
From stdpp Require Import gmap strings pretty.

Set Warnings "-register-all".

Local Open Scope Z_scope.
Local Open Scope string_scope.
Local Open Scope list_scope.

(** ** Numbers

    A JavaScript number is a double.  Every finite double is a rational, and
    the plural rules only take remainders by and compare with small integer
    literals: both are exact on doubles, so a finite number is modelled by the
    rational it denotes ([-0] and [0] are not told apart by any operation
    used here).  [NaN] and the two infinities are kept apart. *)

Inductive number : Type :=
| Fin (q : Q)
| NaN
| PosInf
| NegInf.

(** The number of an integer literal or an integer count. *)
Definition Int (z : Z) : number := Fin (inject_Z z).

(** [n % m] for a positive integer literal [m]: the remainder has the sign of
    the dividend; [NaN % m] and [±Infinity % m] are [NaN]. *)
Definition num_rem (n : number) (m : Z) : number :=
  match n with
  | Fin q => Fin (Z.rem (Qnum q) (m * Z.pos (Qden q)) # Qden q)
  | NaN | PosInf | NegInf => NaN
  end.

(** Comparison of a number with an integer literal; [None] when the number is
    [NaN], for which every comparison but [!==] is false. *)
Definition num_cmp (n : number) (k : Z) : option comparison :=
  match n with
  | Fin q => Some (Z.compare (Qnum q) (k * Z.pos (Qden q)))
  | NaN => None
  | PosInf => Some Gt
  | NegInf => Some Lt
  end.

Definition num_seq (n : number) (k : Z) : bool :=
  match num_cmp n k with Some Eq => true | _ => false end.
Definition num_sne (n : number) (k : Z) : bool := negb (num_seq n k).
Definition num_lt (n : number) (k : Z) : bool :=
  match num_cmp n k with Some Lt => true | _ => false end.
Definition num_gt (n : number) (k : Z) : bool :=
  match num_cmp n k with Some Gt => true | _ => false end.
Definition num_le (n : number) (k : Z) : bool :=
  match num_cmp n k with Some Lt | Some Eq => true | _ => false end.
Definition num_ge (n : number) (k : Z) : bool :=
  match num_cmp n k with Some Gt | Some Eq => true | _ => false end.

Declare Scope js_scope.
Delimit Scope js_scope with js.
Notation "n %% m" := (num_rem n m%Z) (at level 40, left associativity) : js_scope.
Notation "n === k" := (num_seq n k%Z) (at level 70, no associativity) : js_scope.
Notation "n !== k" := (num_sne n k%Z) (at level 70, no associativity) : js_scope.
Notation "n .< k" := (num_lt n k%Z) (at level 70, no associativity) : js_scope.
Notation "n .> k" := (num_gt n k%Z) (at level 70, no associativity) : js_scope.
Notation "n .<= k" := (num_le n k%Z) (at level 70, no associativity) : js_scope.
Notation "n .>= k" := (num_ge n k%Z) (at level 70, no associativity) : js_scope.

(** ** Values *)

Inductive value : Type :=
| JUndefined
| JNull
| JBool (b : bool)
| JNum (n : number)
| JStr (s : string)
| JArr (items : list value)
| JObj (props : list (string * value)).
(** An object is given by its own properties, in the order [for ... in]
    visits them; values are data, none is a function. *)

(** [typeof v] *)
Definition _typeof (v : value) : string :=
  match v with
  | JUndefined => "undefined"
  | JNull => "object"
  | JBool _ => "boolean"
  | JNum _ => "number"
  | JStr _ => "string"
  | JArr _ => "object"
  | JObj _ => "object"
  end.

(** [!!obj && Array === obj.constructor] *)
Definition isArray (obj : value) : bool :=
  match obj with
  | JArr _ => true
  | _ => false
  end.

(** [!!v] *)
Definition truthy (v : value) : bool :=
  match v with
  | JUndefined | JNull => false
  | JBool b => b
  | JNum NaN => false
  | JNum n => num_sne n 0
  | JStr s => negb (String.eqb s "")
  | JArr _ | JObj _ => true
  end.

(** [obj[key]] on the own properties of a plain object, which an object
    lists once each. *)
Definition get_own (props : list (string * value)) (key : string) : value :=
  match List.find (fun p => String.eqb (fst p) key) props with
  | Some (_, v) => v
  | None => JUndefined
  end.

(** ** Calls: notices, results and exceptions *)

(** What a call leaves behind besides its result: the console notices, the
    invocation of the configured [onTranslationNotFound] callback, and the
    [addLocale] it schedules for later when the callback answered. *)
Inductive event : Type :=
| WarnArrayOfStrings (arr : list value)
| WarnPlaceholder (text placeholder : string)
| WarnPluralizationNotNumber
| WarnPluralizationNotProvided (translation : value) (locale : option string) (index : nat)
| WarnLocaleNotSet (key : string)
| TranslationNotFound (locale key defaultValue : string)
| AsyncAddLocale (locale key : string) (translation : value).

Inductive outcome (A : Type) : Type :=
| Return (a : A)
| ThrowTypeError.
Arguments Return {A} a.
Arguments ThrowTypeError {A}.

(** A call: the events in the order they happened, and how it ended. *)
Definition M (A : Type) : Type := (list event * outcome A)%type.

Definition ret {A} (a : A) : M A := ([], Return a).
Definition throw {A} : M A := ([], ThrowTypeError).
Definition emit (e : event) : M unit := ([e], Return tt).
Definition bind {A B} (c : M A) (k : A -> M B) : M B :=
  match c with
  | (es, Return a) => let '(es', r) := k a in (es ++ es', r)
  | (es, ThrowTypeError) => (es, ThrowTypeError)
  end.

Notation "x <- c ;; k" := (bind c (fun x => k))
  (at level 100, c at next level, right associativity).
Notation "c ;;; k" := (bind c (fun _ => k))
  (at level 100, right associativity).

(** [console.warn] and friends are guarded by the [warnings] option. *)
Definition warn_if (warnings : bool) (e : event) : M unit :=
  if warnings then emit e else ret tt.

Definition events {A} (c : M A) : list event := fst c.
Definition result {A} (c : M A) : outcome A := snd c.

(** ** Plural rules: [plurals.getTranslationIndex] *)

Module plurals.

Local Open Scope js_scope.
Local Open Scope bool_scope.

(** One [return] of the [switch], in source order: the case labels that fall
    through to it, the number of forms its comment declares, and the
    expression it returns. *)
Record case_group : Type := Case {
  labels : list string;
  forms : nat;
  body : number -> nat
}.

Definition cases : list case_group := [
  Case ["ay"; "bo"; "cgg"; "dz"; "fa"; "id"; "ja"; "jbo"; "ka"; "kk"; "km";
        "ko"; "ky"; "lo"; "ms"; "my"; "sah"; "su"; "th"; "tt"; "ug"; "vi";
        "wo"; "zh"] 1
    (fun n => 0%nat);
  Case ["is"] 2
    (fun n => if (n %% 10 !== 1) || (n %% 100 === 11) then 1 else 0)%nat;
  Case ["jv"] 2
    (fun n => if n !== 0 then 1 else 0)%nat;
  Case ["mk"] 2
    (fun n => if (n === 1) || (n %% 10 === 1) then 0 else 1)%nat;
  Case ["ach"; "ak"; "am"; "arn"; "br"; "fil"; "fr"; "gun"; "ln"; "mfe";
        "mg"; "mi"; "oc"; "pt_BR"; "tg"; "ti"; "tr"; "uz"; "wa"; "zh"] 2
    (fun n => if n .> 1 then 1 else 0)%nat;
  Case ["lv"] 3
    (fun n => if (n %% 10 === 1) && (n %% 100 !== 11) then 0
              else if n !== 0 then 1 else 2)%nat;
  Case ["lt"] 3
    (fun n => if (n %% 10 === 1) && (n %% 100 !== 11) then 0
              else if (n %% 10 .>= 2) && ((n %% 100 .< 10) || (n %% 100 .>= 20))
                   then 1 else 2)%nat;
  Case ["be"; "bs"; "hr"; "ru"; "sr"; "uk"] 3
    (fun n => if (n %% 10 === 1) && (n %% 100 !== 11) then 0
              else if (n %% 10 .>= 2) && (n %% 10 .<= 4)
                      && ((n %% 100 .< 10) || (n %% 100 .>= 20))
                   then 1 else 2)%nat;
  Case ["mnk"] 3
    (fun n => if n === 0 then 0 else if n === 1 then 1 else 2)%nat;
  Case ["ro"] 3
    (fun n => if n === 1 then 0
              else if (n === 0) || ((n %% 100 .> 0) && (n %% 100 .< 20))
                   then 1 else 2)%nat;
  Case ["pl"] 3
    (fun n => if n === 1 then 0
              else if (n %% 10 .>= 2) && (n %% 10 .<= 4)
                      && ((n %% 100 .< 10) || (n %% 100 .>= 20))
                   then 1 else 2)%nat;
  Case ["cs"; "sk"] 3
    (fun n => if n === 1 then 0
              else if (n .>= 2) && (n .<= 4) then 1 else 2)%nat;
  Case ["csb"] 3
    (fun n => if n === 1 then 0
              else if (n %% 10 .>= 2) && (n %% 10 .<= 4)
                      && ((n %% 100 .< 10) || (n %% 100 .>= 20))
                   then 1 else 2)%nat;
  Case ["sl"] 4
    (fun n => if n %% 100 === 1 then 0
              else if n %% 100 === 2 then 1
              else if (n %% 100 === 3) || (n %% 100 === 4) then 2 else 3)%nat;
  Case ["mt"] 4
    (fun n => if n === 1 then 0
              else if (n === 0) || ((n %% 100 .> 1) && (n %% 100 .< 11)) then 1
              else if (n %% 100 .> 10) && (n %% 100 .< 20) then 2 else 3)%nat;
  Case ["gd"] 4
    (fun n => if (n === 1) || (n === 11) then 0
              else if (n === 2) || (n === 12) then 1
              else if (n .> 2) && (n .< 20) then 2 else 3)%nat;
  Case ["cy"] 4
    (fun n => if n === 1 then 0
              else if n === 2 then 1
              else if (n !== 8) && (n !== 11) then 2 else 3)%nat;
  Case ["kw"] 4
    (fun n => if n === 1 then 0
              else if n === 2 then 1
              else if n === 3 then 2 else 3)%nat;
  Case ["ga"] 5
    (fun n => if n === 1 then 0
              else if n === 2 then 1
              else if (n .> 2) && (n .< 7) then 2
              else if (n .> 6) && (n .< 11) then 3 else 4)%nat;
  Case ["ar"] 6
    (fun n => if n === 0 then 0
              else if n === 1 then 1
              else if n === 2 then 2
              else if (n %% 100 .>= 3) && (n %% 100 .<= 10) then 3
              else if n %% 100 .>= 11 then 4 else 5)%nat
].

(** [default:] everything else, two forms. *)
Definition default_case : case_group :=
  Case [] 2 (fun n => if n !== 1 then 1 else 0)%nat.

(** A [switch] compares the labels in source order with [===] and enters at
    the first that is equal; a [null] language code equals no label. *)
Fixpoint switch (languageCode : option string) (groups : list case_group)
  : case_group :=
  match groups with
  | [] => default_case
  | g :: rest =>
      match languageCode with
      | Some code =>
          if existsb (String.eqb code) (labels g) then g
          else switch languageCode rest
      | None => switch languageCode rest
      end
  end.

Definition getTranslationIndex (languageCode : option string) (n : number) : nat :=
  body (switch languageCode cases) n.




End plurals.

(** ** Strings

    The pieces of [String.prototype] the engine calls.  A string is a
    sequence of 8-bit code units. *)

Fixpoint string_drop (n : nat) (s : string) : string :=
  match n, s with
  | S k, String _ s' => string_drop k s'
  | _, _ => s
  end.

(** [\w] *)
Definition is_word (c : ascii) : bool :=
  let n := nat_of_ascii c in
  ((48 <=? n) && (n <=? 57) || (65 <=? n) && (n <=? 90)
   || (97 <=? n) && (n <=? 122) || (n =? 95))%nat.

(** The characters [.] does not match. *)
Definition is_line_terminator (c : ascii) : bool :=
  let n := nat_of_ascii c in ((n =? 10) || (n =? 13))%nat.

(** The characters [trim] strips: tab, line feed, vertical tab, form feed,
    carriage return, space and no-break space. *)
Definition is_white_space (c : ascii) : bool :=
  let n := nat_of_ascii c in
  ((9 <=? n) && (n <=? 13) || (n =? 32) || (n =? 160))%nat.

Fixpoint trim_start (s : string) : string :=
  match s with
  | String c s' => if is_white_space c then trim_start s' else s
  | EmptyString => EmptyString
  end.

Fixpoint trim_end (s : string) : string :=
  match s with
  | String c s' =>
      match trim_end s' with
      | EmptyString => if is_white_space c then EmptyString else String c EmptyString
      | t => String c t
      end
  | EmptyString => EmptyString
  end.

(** [s.trim()] *)
Definition trim (s : string) : string := trim_end (trim_start s).

(** [s.split(sep)] for a non-empty separator: [skip] counts the characters of
    a separator just found that are still to be passed over. *)
Fixpoint split_from (sep s : string) (skip : nat) : list string :=
  match s with
  | EmptyString => [EmptyString]
  | String c s' =>
      match skip with
      | S k => split_from sep s' k
      | O =>
          if String.prefix sep s
          then EmptyString :: split_from sep s' (String.length sep - 1)
          else match split_from sep s' 0 with
               | piece :: pieces => String c piece :: pieces
               | [] => [String c EmptyString]
               end
      end
  end.

Definition split (sep s : string) : list string := split_from sep s 0.

(** [s.replace(pattern, '')] with a string pattern: the first occurrence of
    [pattern] is removed. *)
Fixpoint remove_first (pattern s : string) : string :=
  if String.prefix pattern s then string_drop (String.length pattern) s
  else match s with
       | String c s' => String c (remove_first pattern s')
       | EmptyString => EmptyString
       end.

(** ** The renderer: [renderFn(identifiers, warnings)] *)

(** The [options] argument of a translation call: left out (or [undefined]),
    [null], or an object of replacement strings by placeholder name (the
    replacements mapping, string to string, of the data model). *)
Inductive options : Type :=
| NoOptions
| NullOptions
| Replacements (r : gmap string string).

(** A character that stands for itself in a regular expression. *)
Definition is_plain_char (c : ascii) : bool :=
  negb (existsb (Ascii.eqb c)
          ["^"; "$"; "\"; "."; "*"; "+"; "?"; "("; ")"; "["; "]"; "{"; "}"; "|"]%char).

Fixpoint all_chars (test : ascii -> bool) (s : string) : bool :=
  match s with
  | String c s' => test c && all_chars test s'
  | EmptyString => true
  end.

(** A delimiter that [new RegExp] reads as the literal text it is, also
    with the quantifier [{1}] put after it: a non-empty string of characters
    that stand for themselves, or of opening braces only, or of closing
    braces only. *)
Definition literal_delimiter (s : string) : bool :=
  negb (String.eqb s "")
  && (all_chars is_plain_char s
      || all_chars (Ascii.eqb "{") s
      || all_chars (Ascii.eqb "}") s).

(** The names every plain object answers to by inheritance. *)
Definition object_prototype_members : list string :=
  ["constructor"; "hasOwnProperty"; "isPrototypeOf"; "propertyIsEnumerable";
   "toLocaleString"; "toString"; "valueOf"; "__proto__";
   "__defineGetter__"; "__defineSetter__"; "__lookupGetter__";
   "__lookupSetter__"].

Section renderFn.

(** The two delimiters and the [warnings] option.  The delimiters are pasted
    into the pattern of the regular expression as they are, each with the
    quantifier [{1}] after it; the matcher below takes them as the literal
    text they are, which is how the regular expression reads the delimiters
    [{] and [}] of the default configuration and every [literal_delimiter].
    A delimiter with a character that is special in a pattern stands for
    another expression, which the matcher below does not describe. *)
Variable identifiers : string * string.
Variable warnings : bool.

(** [matcher]: the regular expression
    [identifiers[0] (\w{1}|\w.+?) identifiers[1]].

    [lazy_any s]: the shortest run of [.+?] from [s], its first character
    already taken, after which the closing delimiter follows; the result is
    the run with the delimiter. *)
Fixpoint lazy_any (s : string) : option string :=
  if String.prefix (snd identifiers) s then Some (snd identifiers)
  else match s with
       | String c s' =>
           if is_line_terminator c then None
           else option_map (String c) (lazy_any s')
       | EmptyString => None
       end.

(** The match of [matcher] that starts at the first character of [s], if any:
    the opening delimiter, a word character, then either the closing
    delimiter at once (first alternative) or the shortest non-empty run of
    characters without a line break that the closing delimiter follows. *)
Definition match_here (s : string) : option string :=
  if String.prefix (fst identifiers) s then
    match string_drop (String.length (fst identifiers)) s with
    | String w s2 =>
        if is_word w then
          if String.prefix (snd identifiers) s2
          then Some (fst identifiers +:+ String w (snd identifiers))
          else match s2 with
               | String d s3 =>
                   if is_line_terminator d then None
                   else option_map
                          (fun t => fst identifiers +:+ String w (String d t))
                          (lazy_any s3)
               | EmptyString => None
               end
        else None
    | EmptyString => None
    end
  else None.

(** The function handed to [translation.replace(matcher, ...)].
    [replacements[key]] is read among the replacements given, which are
    properties of the object's own; for a name that has none and is one of
    the [object_prototype_members], the member every object inherits is
    read instead, which the option left by [r !! key] does not show. *)
Definition replace_placeholder (translation : string) (replacements : options)
    (placeholder : string) : M string :=
  let key := remove_first (snd identifiers)
               (remove_first (fst identifiers) placeholder) in
  match replacements with
  | NoOptions | NullOptions => throw (* replacements[key] *)
  | Replacements r =>
      match r !! key with
      | Some replacement => ret replacement
      | None =>
          warn_if warnings (WarnPlaceholder translation placeholder) ;;;
          ret placeholder
      end
  end.

(** [translation.replace(matcher, fn)] with the global flag: the matches are
    found from left to right without overlap, [skip] counting the characters
    of the last match still to be passed over. *)
Fixpoint replace_matches (translation : string) (replacements : options)
    (s : string) (skip : nat) : M string :=
  match s with
  | EmptyString => ret EmptyString
  | String c s' =>
      match skip with
      | S k => replace_matches translation replacements s' k
      | O =>
          match match_here s with
          | Some placeholder =>
              r <- replace_placeholder translation replacements placeholder ;;
              rest <- replace_matches translation replacements s'
                        (String.length placeholder - 1) ;;
              ret (r +:+ rest)
          | None =>
              rest <- replace_matches translation replacements s' 0 ;;
              ret (String c rest)
          end
      end
  end.

(** [replace(translation, replacements)]: a value without a [replace]
    property is handed back; reading the property of [undefined] or [null]
    throws, and so does calling the [replace] entry of a data object. *)
Definition replace (translation : value) (replacements : options) : M value :=
  match translation with
  | JUndefined | JNull => throw
  | JStr s => s' <- replace_matches s replacements s 0 ;; ret (JStr s')
  | JObj props =>
      if truthy (get_own props "replace") then throw else ret translation
  | JBool _ | JNum _ | JArr _ => ret translation
  end.

(** [arr.map(f)] for an [f] that may warn or throw. *)
Fixpoint map_M {A B} (f : A -> M B) (l : list A) : M (list B) :=
  match l with
  | [] => ret []
  | x :: l' => y <- f x ;; ys <- map_M f l' ;; ret (y :: ys)
  end.

(** [resolvePlaceholders()] inside [render]: an array is mapped, a string is
    replaced in, and for anything else the function runs off its end. *)
Definition resolvePlaceholders (translation : value) (replacements : options)
  : M value :=
  match translation with
  | JArr items =>
      items' <- map_M (fun item => replace item replacements) items ;;
      ret (JArr items')
  | JStr _ => replace translation replacements
  | _ => ret JUndefined
  end.

(** [v.trim()] *)
Definition call_trim (v : value) : M value :=
  match v with
  | JStr s => ret (JStr (trim s))
  | _ => throw
  end.

(** [arr[index]], [undefined] past the end. *)
Definition item_at (arr : list value) (index : nat) : value :=
  nth index arr JUndefined.

Definition render (locale : option string) (translation : value)
    (replacements : options) (pluralization : value) : M value :=
  (* default parameters: [replacements = {}], [pluralization = null] *)
  let replacements :=
    match replacements with NoOptions => Replacements ∅ | r => r end in
  let pluralization :=
    match pluralization with JUndefined => JNull | p => p end in
  match pluralization with
  | JNull => resolvePlaceholders translation replacements
  | JNum count =>
      resolvedTranslation <- resolvePlaceholders translation replacements ;;
      pluralizations <-
        match resolvedTranslation with
        | JArr (item :: items) => ret (item :: items)
        | JStr s => ret (List.map JStr (split ":::" s))
        | _ => throw
        end ;;
      let index := plurals.getTranslationIndex locale count in
      match item_at pluralizations index with
      | JUndefined =>
          warn_if warnings
            (WarnPluralizationNotProvided translation locale index) ;;;
          call_trim (item_at pluralizations 0)
      | item => call_trim item
      end
  | _ =>
      warn_if warnings WarnPluralizationNotNumber ;;;
      resolvePlaceholders translation replacements
  end.

End renderFn.

(** ** The store module: [i18nVuexModule] *)

Global Instance value_inhabited : Inhabited value := populate JUndefined.

(** [obj.hasOwnProperty(key)] on an object used as a dictionary. *)
Definition hasOwnProperty {A} (obj : gmap string A) (key : string) : bool :=
  bool_decide (is_Some (obj !! key)).

(** The property name a locale that may be [null] is read under. *)
Definition prop_key (locale : option string) : string :=
  match locale with
  | Some l => l
  | None => "null"
  end.

(** A string is never [null]: the second test of
    [objType == 'object' && objType !== null]. *)
Definition string_sne_null (s : string) : bool := true.

(** [obj[key] = v] on a plain object gives the object a property of its
    own, except for the key [__proto__]: that assignment goes to the
    accessor every object inherits (it sets the prototype when [v] is an
    object, and does nothing otherwise), and the object gets no property of
    that name. *)
Definition assign {A} (obj : gmap string A) (key : string) (v : A)
  : gmap string A :=
  if String.eqb key "__proto__" then obj else <[key := v]> obj.

(** The property name of an array index or a character position. *)
Definition index_key (index : nat) : string := pretty index.

(** [translations.hasOwnProperty] is the method every object inherits,
    unless the tree has a property of its own named [hasOwnProperty]: then
    the call [translations.hasOwnProperty(i)] calls that value, which is
    data, and throws. *)
Definition shadows_hasOwnProperty (translations : value) : bool :=
  match translations with
  | JObj props => existsb (fun p => String.eqb (fst p) "hasOwnProperty") props
  | _ => false
  end.

(** One turn of the [for (var i in translations)] loop of
    [flattenTranslations] past its [hasOwnProperty] test, [flatten] being
    the function itself.  The keys [i + '.' + x] of the inner loop have a
    dot in them, so none is [__proto__]. *)
Definition flatten_entry (flatten : value -> M (gmap string value))
    (i : string) (v : value) (toReturn : gmap string value)
  : M (gmap string value) :=
  let objType := _typeof v in
  if isArray v then
    (* allow unflattened array of strings *)
    (match v with
     | JArr items =>
         if forallb (fun item => String.eqb (_typeof item) "string") items
         then ret tt else emit (WarnArrayOfStrings items)
     | _ => ret tt
     end) ;;;
    ret (assign toReturn i v)
  else if String.eqb objType "object" && string_sne_null objType then
    flatObject <- flatten v ;;
    ret (kmap (String.append (i +:+ ".")) flatObject ∪ toReturn)
  else
    ret (assign toReturn i v).

(** The loop over the own properties of an object, [shadowed] telling
    whether [translations.hasOwnProperty(i)] throws. *)
Fixpoint flatten_entries (flatten : value -> M (gmap string value))
    (shadowed : bool) (entries : list (string * value))
    (toReturn : gmap string value) : M (gmap string value) :=
  match entries with
  | [] => ret toReturn
  | (i, v) :: entries' =>
      if shadowed then throw
      else
        toReturn' <- flatten_entry flatten i v toReturn ;;
        flatten_entries flatten shadowed entries' toReturn'
  end.

(** The loop over the items of an array, whose property names are the
    indices. *)
Fixpoint flatten_items (flatten : value -> M (gmap string value))
    (items : list value) (index : nat) (toReturn : gmap string value)
  : M (gmap string value) :=
  match items with
  | [] => ret toReturn
  | v :: items' =>
      toReturn' <- flatten_entry flatten (index_key index) v toReturn ;;
      flatten_items flatten items' (S index) toReturn'
  end.

(** The characters of a string as [for ... in] visits them. *)
Fixpoint string_entries (s : string) (index : nat) : list (string * value) :=
  match s with
  | EmptyString => []
  | String c s' =>
      (index_key index, JStr (String c EmptyString)) :: string_entries s' (S index)
  end.

(** [flattenTranslations(translations)].  [for ... in] visits the own
    properties of an object, the indices of an array and the positions of a
    string (whose characters are strings, so that the loop never flattens
    one); it does not enter the loop for [null], [undefined], a boolean or a
    number. *)
Fixpoint flattenTranslations (translations : value) : M (gmap string value) :=
  match translations with
  | JObj props =>
      flatten_entries flattenTranslations (shadows_hasOwnProperty translations)
        props ∅
  | JArr items => flatten_items flattenTranslations items 0 ∅
  | JStr s => flatten_entries (fun _ => ret ∅) false (string_entries s 0) ∅
  | _ => ret ∅
  end.

Record state : Type := State {
  locale : option string;
  fallback : option string;
  translations : gmap string (gmap string value)
}.

(** The module's initial state. *)
Definition initial_state : state :=
  {| locale := None; fallback := None; translations := ∅ |}.

Module mutations.

Definition SET_LOCALE (st : state) (payload_locale : option string) : state :=
  {| locale := payload_locale;
     fallback := fallback st;
     translations := translations st |}.

Definition ADD_LOCALE (st : state) (payload_locale : string)
    (payload_translations : value) : M state :=
  translations' <- flattenTranslations payload_translations ;;
  if hasOwnProperty (translations st) payload_locale then
    let existingTranslations := translations st !!! payload_locale in
    (* Object.assign({}, existingTranslations, translations) *)
    ret {| locale := locale st;
           fallback := fallback st;
           translations := assign (translations st) payload_locale
                             (translations' ∪ existingTranslations) |}
  else
    ret {| locale := locale st;
           fallback := fallback st;
           translations := assign (translations st) payload_locale translations' |}.

Definition REPLACE_LOCALE (st : state) (payload_locale : string)
    (payload_translations : value) : M state :=
  translations' <- flattenTranslations payload_translations ;;
  ret {| locale := locale st;
         fallback := fallback st;
         translations := assign (translations st) payload_locale translations' |}.

Definition REMOVE_LOCALE (st : state) (payload_locale : string) : state :=
  if hasOwnProperty (translations st) payload_locale then
    let locale' :=
      if bool_decide (locale st = Some payload_locale) then None else locale st in
    let translationCopy := translations st in
    {| locale := locale';
       fallback := fallback st;
       translations := delete payload_locale translationCopy |}
  else st.

Definition SET_FALLBACK_LOCALE (st : state) (payload_locale : option string) : state :=
  {| locale := locale st;
     fallback := payload_locale;
     translations := translations st |}.

End mutations.

(** ** The plugin: [VuexI18nPlugin] *)

Record config : Type := Config {
  warnings : bool;
  identifiers : string * string;
  (** What [onTranslationNotFound(locale, key, defaultValue)] answers, as the
      value its promise settles to; [undefined] for the default callback. *)
  onTranslationNotFound : string -> string -> string -> value
}.

Definition default_config : config :=
  {| warnings := true;
     identifiers := ("{", "}");
     onTranslationNotFound := fun _ _ _ => JUndefined |}.

Section plugin.

Variable cfg : config.

Definition plugin_render := render (identifiers cfg) (warnings cfg).

(** The body of [translateInLanguage(locale, key, [defaultValue], [options],
    [pluralization])].  The function tells its two signatures apart by
    [typeof args[2] === 'string']: [defaultValue] is [Some] when the call
    gave a string there, and is the key otherwise.  Its renderer, store and
    callback are those of the plugin; only the notice of a missing locale
    reads [this._config]: [this] is the [_config] of the object the function
    is called on, [None] when it is called on nothing or on an object
    without one, and reading [this._config.warnings] throws then. *)
Definition translateInLanguage_on (this : option config) (st : state)
    (locale : option string) (key : string) (defaultValue : option string)
    (opts : options) (pluralization : value) : M value :=
  let defaultValue := match defaultValue with Some d => d | None => key end in
  match locale with
  | None | Some EmptyString =>
      (* !locale *)
      match this with
      | Some this_config =>
          warn_if (warnings this_config) (WarnLocaleNotSet key) ;;;
          ret (JStr defaultValue)
      | None => throw
      end
  | Some locale =>
      let translations := translations st in
      let fallback := fallback st in
      let localeRegional := split "-" locale in
      let translationExists :=
        if negb (hasOwnProperty translations locale) then false
        else if negb (hasOwnProperty (translations !!! locale) key) then false
        else true in
      if translationExists then
        plugin_render (Some locale) ((translations !!! locale) !!! key)
          opts pluralization
      else if (1 <? length localeRegional)%nat
              && hasOwnProperty translations (hd "" localeRegional)
              && hasOwnProperty (translations !!! (hd "" localeRegional)) key
      then
        plugin_render (Some (hd "" localeRegional))
          ((translations !!! (hd "" localeRegional)) !!! key) opts pluralization
      else
        emit (TranslationNotFound locale key defaultValue) ;;;
        let asyncTranslation := onTranslationNotFound cfg locale key defaultValue in
        (if truthy asyncTranslation
         then emit (AsyncAddLocale locale key asyncTranslation)
         else ret tt) ;;;
        if negb (hasOwnProperty translations (prop_key fallback)) then
          plugin_render (Some locale) (JStr defaultValue) opts pluralization
        else if negb (hasOwnProperty (translations !!! prop_key fallback) key) then
          plugin_render fallback (JStr defaultValue) opts pluralization
        else
          plugin_render (Some locale)
            ((translations !!! prop_key fallback) !!! key) opts pluralization
  end.

(** [translateIn(...)] called on the plugin instance, whose [_config] is
    the configuration. *)
Definition translateInLanguage (st : state) (locale : option string)
    (key : string) (defaultValue : option string) (opts : options)
    (pluralization : value) : M value :=
  translateInLanguage_on (Some cfg) st locale key defaultValue opts pluralization.

(** [translate(...)]: the store's current locale, and
    [translateInLanguage.apply(void 0, ...)], a call on nothing. *)
Definition translate (st : state) (key : string) (defaultValue : option string)
    (opts : options) (pluralization : value) : M value :=
  translateInLanguage_on None st (locale st) key defaultValue opts pluralization.

(** [checkKeyExists(key, scope = 'fallback')], [scope] being [None] when the
    call leaves it out. *)
Definition checkKeyExists (st : state) (key : string) (scope : option string)
  : M bool :=
  let scope := match scope with Some s => s | None => "fallback" end in
  let locale := locale st in
  let fallback := fallback st in
  let translations := translations st in
  if hasOwnProperty translations (prop_key locale)
     && hasOwnProperty (translations !!! prop_key locale) key
  then ret true
  else if String.eqb scope "strict" then ret false
  else
    match locale with
    | None => throw (* null.split *)
    | Some l =>
        let localeRegional := split "-" l in
        if (1 <? length localeRegional)%nat
           && hasOwnProperty translations (hd "" localeRegional)
           && hasOwnProperty (translations !!! (hd "" localeRegional)) key
        then ret true
        else if String.eqb scope "locale" then ret false
        else if hasOwnProperty translations (prop_key fallback)
                && hasOwnProperty (translations !!! prop_key fallback) key
        then ret true
        else ret false
    end.

(** [checkLocaleExists(locale)] *)
Definition checkLocaleExists (st : state) (locale : string) : bool :=
  hasOwnProperty (translations st) locale.

(** The store requests of the plugin; each dispatches the action that
    commits the mutation of the same name. *)
Definition setLocale (st : state) (locale : option string) : state :=
  mutations.SET_LOCALE st locale.
Definition setFallbackLocale (st : state) (locale : option string) : state :=
  mutations.SET_FALLBACK_LOCALE st locale.
Definition addLocale (st : state) (locale : string) (tree : value) : M state :=
  mutations.ADD_LOCALE st locale tree.
Definition replaceLocale (st : state) (locale : string) (tree : value) : M state :=
  mutations.REPLACE_LOCALE st locale tree.
Definition removeLocale (st : state) (locale : string) : state :=
  if hasOwnProperty (translations st) locale
  then mutations.REMOVE_LOCALE st locale
  else st.

End plugin.

(** ** Vocabulary of the statements *)

(** The entry of [locale] in the table has [key]. *)
Definition key_in (translations : gmap string (gmap string value))
    (locale key : string) : bool :=
  hasOwnProperty translations locale
  && hasOwnProperty (translations !!! locale) key.

(** The parent language code of a regional locale: what stands before the
    first [-] of a locale that has one. *)
Definition regional_parent (locale : string) : option string :=
  match split "-" locale with
  | parent :: _ :: _ => Some parent
  | _ => None
  end.

(** A value [flattenTranslations] copies as a leaf without looking inside:
    neither an array nor of type ['object']. *)
Definition is_scalar (v : value) : bool :=
  negb (isArray v) && negb (String.eqb (_typeof v) "object").
(** A value of the flat table that is not a nested mapping: an array, or a
    value that is not of type ['object']. *)
Definition is_leaf (v : value) : bool :=
  isArray v || negb (String.eqb (_typeof v) "object").

(** [pattern] occurs somewhere in [s]. *)
Fixpoint occurs (pattern s : string) : bool :=
  String.prefix pattern s
  || match s with
     | String _ s' => occurs pattern s'
     | EmptyString => false
     end.

(** Every character of [s] is a word character. *)
Fixpoint all_word (s : string) : bool :=
  match s with
  | String c s' => is_word c && all_word s'
  | EmptyString => true
  end.

(** The console notices among the events; the others report the not-found
    callback and the [addLocale] it schedules. *)
Definition is_notice (e : event) : bool :=
  match e with
  | TranslationNotFound _ _ _ | AsyncAddLocale _ _ _ => false
  | _ => true
  end.

(** A call that emits console notices only. *)
Definition only_notices {A} (c : M A) : Prop :=
  Forall (fun e => is_notice e = true) (events c).

(** What [translateInLanguage] does once the key was found neither in the
    entry of the locale nor in the entry of its regional parent: the rest of
    its body. *)
Definition not_found_path (cfg : config) (st : state)
    (locale key defaultValue : string) (opts : options) (pluralization : value)
  : M value :=
  emit (TranslationNotFound locale key defaultValue) ;;;
  (if truthy (onTranslationNotFound cfg locale key defaultValue)
   then emit (AsyncAddLocale locale key
                (onTranslationNotFound cfg locale key defaultValue))
   else ret tt) ;;;
  if negb (hasOwnProperty (translations st) (prop_key (fallback st))) then
    plugin_render cfg (Some locale) (JStr defaultValue) opts pluralization
  else if negb (hasOwnProperty (translations st !!! prop_key (fallback st)) key) then
    plugin_render cfg (fallback st) (JStr defaultValue) opts pluralization
  else
    plugin_render cfg (Some locale)
      ((translations st !!! prop_key (fallback st)) !!! key) opts pluralization.

(** The items of an array with their property names, from [index] on. *)
Fixpoint item_entries (items : list value) (index : nat)
  : list (string * value) :=
  match items with
  | [] => []
  | v :: items' => (index_key index, v) :: item_entries items' (S index)
  end.

(** No mapping that [flattenTranslations] enters under [v] has a property of
    its own named [hasOwnProperty] (arrays are copied, not entered). *)
Fixpoint plain_keys (v : value) : bool :=
  match v with
  | JObj props =>
      negb (existsb (fun p => String.eqb (fst p) "hasOwnProperty") props)
      && forallb (fun p => plain_keys (snd p)) props
  | _ => true
  end.

(** The same for a tree handed to [flattenTranslations], which enters the
    items of an array when the array is the tree itself. *)
Definition flattenable (tree : value) : bool :=
  match tree with
  | JArr items => forallb plain_keys items
  | _ => plain_keys tree
  end.

(** What [flatten] has to do for the loop of [flattenTranslations] to get
    past [v]: return, when [v] is a nested mapping. *)
Definition flattens (flatten : value -> M (gmap string value)) (v : value)
  : Prop :=
  is_leaf v = false -> exists m, result (flatten v) = Return m.

(** The table of the store answers [hasOwnProperty] with the method every
    object inherits: no locale of that name has been stored. *)
Definition plain_table (st : state) : Prop :=
  translations st !! "hasOwnProperty" = None.

(** * Properties *)

(** ** Plural rules *)




Lemma num_rem_Int (z m : Z) : num_rem (Int z) m = Int (Z.rem z m).
Proof. unfold num_rem, Int; simpl. now rewrite Z.mul_1_r. Qed.

Module plurals_facts.
Import plurals.

(** Every [return] of the switch stays below the number of forms its comment
    declares, whatever the count. *)
Lemma body_below_forms (g : case_group) (n : number) :
  In g (default_case :: cases) -> (body g n < forms g)%nat /\ (1 <= forms g <= 6)%nat.
Proof.
  simpl. intros H.
  repeat (destruct H as [<- | H]; [
    simpl; split; [| lia];
    repeat match goal with
           | |- context [if ?b then _ else _] => destruct b
           end; lia |]).
  destruct H.
Qed.

Lemma switch_in (code : option string) (groups : list case_group) :
  In (switch code groups) (default_case :: groups).
Proof.
  induction groups as [| g groups IH]; simpl.
  - now left.
  - destruct code as [c |].
    + destruct (existsb (String.eqb c) (labels g)).
      * right. now left.
      * destruct IH as [IH | IH]; [now left | right; now right].
    + destruct IH as [IH | IH]; [now left | right; now right].
Qed.



End plurals_facts.

(** C10: for every integer count, the plural index of ["zh"] is 0.  The label
    is listed twice, in the one-form group and again in the two-form group
    ([n > 1 ? 1 : 0]); the switch enters at the first, so the second is never
    reached. *)
Theorem zh_index_is_zero :
  (forall n : Z, plurals.getTranslationIndex (Some "zh") (Int n) = 0%nat)
  /\ (exists g1 g2 rest1 rest2,
        plurals.cases = g1 :: rest1 ++ g2 :: rest2
        /\ In "zh" (plurals.labels g1) /\ plurals.forms g1 = 1%nat
        /\ In "zh" (plurals.labels g2) /\ plurals.forms g2 = 2%nat
        /\ plurals.switch (Some "zh") plurals.cases = g1).
Proof.
  split; [reflexivity |].
  eexists _, _, [_; _; _], _.
  split; [reflexivity |].
  simpl. intuition.
Qed.



(** ** The renderer *)

Lemma bind_ret_l {A B} (a : A) (k : A -> M B) : bind (ret a) k = k a.
Proof. unfold bind, ret. now destruct (k a). Qed.

Lemma bind_ret_r {A} (c : M A) : bind c ret = c.
Proof.
  destruct c as [es [a |]]; unfold bind, ret; simpl; [| reflexivity].
  now rewrite app_nil_r.
Qed.


Section render_facts.

Variable identifiers : string * string.
Variable warnings : bool.


End render_facts.




(** C5, as the code has it.  For every string and every supplied count that
    is not of type number (a string, a boolean, an array, an object),
    [render] warns that the pluralization is not a number (when warnings are
    on), splits and selects nothing, and returns what it returns without a
    count: the string with its placeholders replaced. *)
Theorem non_number_count_is_ignored (identifiers : string * string)
    (warnings : bool) (locale : option string) (s : string) (r : options)
    (pluralization : value) :
  _typeof pluralization <> "number" ->
  pluralization <> JNull -> pluralization <> JUndefined ->
  render identifiers warnings locale (JStr s) r pluralization
  = (warn_if warnings WarnPluralizationNotNumber ;;;
     render identifiers warnings locale (JStr s) r JNull)
  /\ render identifiers warnings locale (JStr s) r JNull
     = replace identifiers warnings (JStr s)
         (match r with NoOptions => Replacements ∅ | _ => r end)
  /\ (warnings = true ->
      events (render identifiers warnings locale (JStr s) r pluralization)
      = WarnPluralizationNotNumber
          :: events (render identifiers warnings locale (JStr s) r JNull)).
Proof.
  intros Hn H1 H2.
  assert (E : render identifiers warnings locale (JStr s) r pluralization
              = (warn_if warnings WarnPluralizationNotNumber ;;;
                 render identifiers warnings locale (JStr s) r JNull)).
  { destruct pluralization; simpl in Hn; try congruence; reflexivity. }
  split; [exact E |]. split; [reflexivity |].
  intros ->. rewrite E. unfold warn_if, emit, bind, events.
  now destruct (render identifiers true locale (JStr s) r JNull) as [es [v |]].
Qed.

Lemma non_number_count_is_ignored_witness :
  render ("{", "}") true (Some "en") (JStr "one:::many") NoOptions (JStr "2")
  = ([WarnPluralizationNotNumber], Return (JStr "one:::many")).
Proof.
  destruct (non_number_count_is_ignored ("{", "}") true (Some "en")
              "one:::many" NoOptions (JStr "2")) as (E & _ & _);
    [discriminate | discriminate | discriminate |].
  rewrite E. reflexivity.
Defined.

(** C5 as stated fails for a fractional count: 2.5 is of type number, so
    [render] warns of nothing, splits the string and selects a variant. *)
Lemma fractional_count_selects_variant :
  render ("{", "}") true (Some "en") (JStr "one:::many") NoOptions (JNum (Fin (5 # 2)))
  = ([], Return (JStr "many"))
  /\ render ("{", "}") true (Some "en") (JStr "one:::many") NoOptions JNull
     = ([], Return (JStr "one:::many")).
Proof. split; reflexivity. Qed.

(** C1 fails on the code: a numeric count with a translation that is not a
    string, or is an empty array, makes [render] throw, and [checkKeyExists]
    throws in the store's initial state, where no locale is set. *)
Theorem type_errors_of_the_public_surface :
  result (render ("{", "}") true (Some "en") (JNum (Int 42)) NoOptions (JNum (Int 1)))
  = ThrowTypeError
  /\ result (render ("{", "}") true (Some "en") (JArr []) NoOptions (JNum (Int 1)))
     = ThrowTypeError
  /\ result (checkKeyExists initial_state "k" None) = ThrowTypeError.
Proof. repeat split; reflexivity. Qed.

(** ** Lookups: [translateInLanguage] and [checkKeyExists] *)

Lemma hasOwnProperty_true {A} (obj : gmap string A) (key : string) :
  hasOwnProperty obj key = true <-> is_Some (obj !! key).
Proof. unfold hasOwnProperty. apply bool_decide_eq_true. Qed.

Lemma key_in_lookup (translations : gmap string (gmap string value))
    (locale key : string) (entry : gmap string value) (v : value) :
  translations !! locale = Some entry -> entry !! key = Some v ->
  key_in translations locale key = true
  /\ (translations !!! locale) !!! key = v.
Proof.
  intros He Hv. unfold key_in.
  rewrite (lookup_total_correct _ _ _ He), (lookup_total_correct _ _ _ Hv).
  split; [| reflexivity].
  apply andb_true_iff.
  split; apply hasOwnProperty_true; eauto.
Qed.

Lemma exists_test (translations : gmap string (gmap string value))
    (locale key : string) :
  (if negb (hasOwnProperty translations locale) then false
   else if negb (hasOwnProperty (translations !!! locale) key) then false
   else true) = key_in translations locale key.
Proof.
  unfold key_in.
  destruct (hasOwnProperty translations locale); [| reflexivity].
  now destruct (hasOwnProperty (translations !!! locale) key).
Qed.

Lemma regional_test (translations : gmap string (gmap string value))
    (locale key : string) :
  ((1 <? length (split "-" locale))%nat
   && hasOwnProperty translations (hd "" (split "-" locale))
   && hasOwnProperty (translations !!! (hd "" (split "-" locale))) key)
  = match regional_parent locale with
    | Some parent => key_in translations parent key
    | None => false
    end.
Proof.
  unfold regional_parent, key_in.
  now destruct (split "-" locale) as [| parent [| region rest]].
Qed.



Section lookup_facts.

Variable cfg : config.



End lookup_facts.



(** C8 fails on the code in a state without an active locale: for a key
    that only the entry of the fallback locale has, the strict check is
    false, as the claim says, but the check with scope ['fallback'], and the
    check with the default scope, throw where the claim says true.  With the
    active locale ["de-CH"] set in the same state the scopes are as the
    claim says: the key of the fallback entry is found by the scope
    ['fallback'] and by the default scope only, and a key of the entry of
    the parent ["de"] is found by the scope ['locale'], not by the strict
    one. *)
Theorem keyExists_throws_without_locale :
  let st := {| locale := None; fallback := Some "en";
               translations := {[ "en" := {[ "k" := JStr "v" ]};
                                  "de" := {[ "p" := JStr "w" ]} ]} |} in
  let st' := mutations.SET_LOCALE st (Some "de-CH") in
  (key_in (translations st) "en" "k" = true
   /\ checkKeyExists st "k" (Some "strict") = ret false
   /\ result (checkKeyExists st "k" (Some "fallback")) = ThrowTypeError
   /\ result (checkKeyExists st "k" None) = ThrowTypeError)
  /\ (checkKeyExists st' "k" (Some "strict") = ret false
      /\ checkKeyExists st' "k" (Some "locale") = ret false
      /\ checkKeyExists st' "k" (Some "fallback") = ret true
      /\ checkKeyExists st' "k" None = ret true)
  /\ (checkKeyExists st' "p" (Some "strict") = ret false
      /\ checkKeyExists st' "p" (Some "locale") = ret true).
Proof. repeat split; vm_compute; reflexivity. Qed.

(** ** The store: [REMOVE_LOCALE] *)



(** ** The flattener *)

Lemma result_bind {A B} (c : M A) (k : A -> M B) (a : A) :
  result c = Return a -> result (bind c k) = result (k a).
Proof.
  destruct c as [es r]. simpl. intros ->.
  unfold bind, result. now destruct (k a).
Qed.

Lemma result_bind_throw {A B} (c : M A) (k : A -> M B) :
  result c = ThrowTypeError -> result (bind c k) = ThrowTypeError.
Proof. destruct c as [es r]. simpl. now intros ->. Qed.

Lemma result_bind_inv {A B} (c : M A) (k : A -> M B) (b : B) :
  result (bind c k) = Return b ->
  exists a, result c = Return a /\ result (k a) = Return b.
Proof.
  destruct c as [es [a |]]; unfold bind, result; simpl.
  - destruct (k a) as [es' r] eqn:E. simpl. intros ->.
    exists a. now rewrite E.
  - discriminate.
Qed.

Lemma is_leaf_cases (v : value) :
  is_leaf v
  = (isArray v
     || negb (String.eqb (_typeof v) "object" && string_sne_null (_typeof v))).
Proof. unfold is_leaf, string_sne_null. now rewrite andb_true_r. Qed.

Lemma is_scalar_leaf (v : value) : is_scalar v = true -> is_leaf v = true.
Proof.
  unfold is_scalar, is_leaf. intros H. apply andb_true_iff in H as [_ ->].
  apply orb_true_r.
Qed.

Lemma assign_union {A} (obj : gmap string A) (key : string) (v : A) :
  assign obj key v = assign ∅ key v ∪ obj.
Proof.
  unfold assign. destruct (String.eqb key "__proto__").
  - now rewrite (left_id_L ∅ (∪)).
  - now rewrite insert_union_singleton_l, insert_empty.
Qed.

Lemma assign_other {A} (obj : gmap string A) (key : string) (v : A) :
  key <> "__proto__" -> assign obj key v = <[key := v]> obj.
Proof. intros H. unfold assign. apply String.eqb_neq in H. now rewrite H. Qed.

Lemma plain_keys_app (l1 l2 : list (string * value)) :
  plain_keys (JObj (l1 ++ l2)) = plain_keys (JObj l1) && plain_keys (JObj l2).
Proof.
  cbn [plain_keys]. rewrite existsb_app, forallb_app.
  destruct (existsb _ l1), (existsb _ l2), (forallb _ l1), (forallb _ l2);
    reflexivity.
Qed.

Lemma plain_keys_cons (i : string) (v : value) (l : list (string * value)) :
  plain_keys (JObj ((i, v) :: l)) = true ->
  i <> "hasOwnProperty" /\ plain_keys v = true /\ plain_keys (JObj l) = true.
Proof.
  cbn [plain_keys existsb forallb fst snd].
  destruct (String.eqb_spec i "hasOwnProperty") as [-> | Hi]; [discriminate |].
  simpl. intros H. apply andb_true_iff in H as [Hs H].
  apply andb_true_iff in H as [Hv Hl].
  now rewrite Hs, Hv, Hl.
Qed.

Lemma plain_keys_not_shadowed (props : list (string * value)) :
  plain_keys (JObj props) = true -> shadows_hasOwnProperty (JObj props) = false.
Proof.
  cbn [plain_keys shadows_hasOwnProperty]. intros H.
  apply andb_true_iff in H as [H _]. now apply negb_true_iff in H.
Qed.

Lemma not_leaf_flattenable (v : value) :
  is_leaf v = false -> flattenable v = plain_keys v.
Proof. now destruct v. Qed.

Section flatten_facts.

Variable flatten : value -> M (gmap string value).

(** The notice for an array entry never throws. *)
Lemma array_notice_returns (v : value) :
  result (match v with
          | JArr items =>
              if forallb (fun item => String.eqb (_typeof item) "string") items
              then ret tt else emit (WarnArrayOfStrings items)
          | _ => ret tt
          end) = Return tt.
Proof. destruct v; try reflexivity. now destruct (forallb _ _). Qed.

(** A leaf is assigned under its key. *)
Lemma flatten_entry_leaf (i : string) (v : value) (toReturn : gmap string value) :
  is_leaf v = true ->
  result (flatten_entry flatten i v toReturn) = Return (assign toReturn i v).
Proof.
  intros H. rewrite is_leaf_cases in H. unfold flatten_entry.
  destruct (isArray v).
  - now rewrite (result_bind _ _ tt) by apply array_notice_returns.
  - simpl in H. apply negb_true_iff in H. now rewrite H.
Qed.

(** A nested mapping is flattened and its keys are prefixed. *)
Lemma flatten_entry_mapping (i : string) (v : value) (toReturn : gmap string value) :
  is_leaf v = false ->
  flatten_entry flatten i v toReturn
  = (flatObject <- flatten v ;;
     ret (kmap (String.append (i +:+ ".")) flatObject ∪ toReturn)).
Proof.
  intros H. rewrite is_leaf_cases in H. unfold flatten_entry.
  apply orb_false_iff in H as [-> H]. apply negb_false_iff in H. now rewrite H.
Qed.

Lemma flatten_entry_returns (i : string) (v : value) :
  flattens flatten v ->
  exists added, forall toReturn,
    result (flatten_entry flatten i v toReturn) = Return (added ∪ toReturn).
Proof.
  intros Hv. destruct (is_leaf v) eqn:El.
  - exists (assign ∅ i v). intros toReturn.
    now rewrite flatten_entry_leaf, assign_union.
  - destruct (Hv El) as [m Hm].
    exists (kmap (String.append (i +:+ ".")) m). intros toReturn.
    now rewrite flatten_entry_mapping, (result_bind _ _ _ Hm).
Qed.

(** The loop never throws when [flatten] does not, and what it adds to
    [toReturn] does not depend on [toReturn]. *)
Lemma flatten_entries_returns (entries : list (string * value)) :
  Forall (fun p => flattens flatten (snd p)) entries ->
  exists added, forall toReturn,
    result (flatten_entries flatten false entries toReturn)
    = Return (added ∪ toReturn).
Proof.
  induction 1 as [| [i v] entries Hv _ [added IH]].
  - exists ∅. intros toReturn. simpl. now rewrite (left_id_L ∅ (∪)).
  - destruct (flatten_entry_returns i v Hv) as [added1 H1].
    exists (added ∪ added1). intros toReturn. cbn [flatten_entries].
    now rewrite (result_bind _ _ _ (H1 toReturn)), IH, (assoc_L (∪)).
Qed.

(** The loop over a tree continues after [pre] from what [pre] left. *)
Lemma flatten_entries_app (pre post : list (string * value))
    (toReturn mid : gmap string value) :
  result (flatten_entries flatten false pre toReturn) = Return mid ->
  result (flatten_entries flatten false (pre ++ post) toReturn)
  = result (flatten_entries flatten false post mid).
Proof.
  revert toReturn.
  induction pre as [| [i v] pre IH]; intros toReturn; simpl app;
    cbn [flatten_entries].
  - intros [= ->]. reflexivity.
  - intros H. apply result_bind_inv in H as (acc & Hacc & H).
    rewrite (result_bind _ _ _ Hacc). now apply IH.
Qed.

(** The loop over the items of an array is the loop over its indexed
    entries. *)
Lemma flatten_items_entries (items : list value) (index : nat)
    (toReturn : gmap string value) :
  flatten_items flatten items index toReturn
  = flatten_entries flatten false (item_entries items index) toReturn.
Proof.
  revert index toReturn.
  induction items as [| v items IH]; intros index toReturn; [reflexivity |].
  cbn [flatten_items item_entries flatten_entries].
  destruct (flatten_entry flatten (index_key index) v toReturn) as [es [acc |]];
    simpl; [now rewrite IH | reflexivity].
Qed.

(** An entry of a tree adds [added] on top of what the entries before it
    left, and the entries after it add [later] on top of that. *)
Lemma flatten_entries_split (pre post : list (string * value))
    (i : string) (v : value) :
  Forall (fun p => flattens flatten (snd p)) pre ->
  flattens flatten v ->
  Forall (fun p => flattens flatten (snd p)) post ->
  exists before added later,
    (forall toReturn,
        result (flatten_entry flatten i v toReturn) = Return (added ∪ toReturn))
    /\ (forall toReturn,
          result (flatten_entries flatten false post toReturn)
          = Return (later ∪ toReturn))
    /\ result (flatten_entries flatten false (pre ++ (i, v) :: post) ∅)
       = Return (later ∪ (added ∪ before)).
Proof.
  intros Hpre Hv Hpost.
  destruct (flatten_entries_returns pre Hpre) as [before Hb].
  destruct (flatten_entry_returns i v Hv) as [added Ha].
  destruct (flatten_entries_returns post Hpost) as [later Hl].
  exists before, added, later. split; [exact Ha |]. split; [exact Hl |].
  rewrite (flatten_entries_app pre ((i, v) :: post) ∅ (before ∪ ∅)) by apply Hb.
  cbn [flatten_entries]. rewrite (result_bind _ _ _ (Ha _)), Hl.
  now rewrite (right_id_L ∅ (∪)).
Qed.

End flatten_facts.

Lemma item_entries_values (items : list value) (index : nat) :
  Forall (fun p => In (snd p) items) (item_entries items index).
Proof.
  revert index. induction items as [| v items IH]; intros index; constructor.
  - now left.
  - eapply Forall_impl; [apply IH |]. intros p Hp. now right.
Qed.

Lemma string_entries_leaves (s : string) (index : nat) :
  Forall (fun p => is_leaf (snd p) = true) (string_entries s index).
Proof.
  revert index. induction s as [| c s IH]; intros index; constructor;
    [reflexivity | apply IH].
Qed.

(** [flattenTranslations] returns for a tree none of whose mappings has a
    property of its own named [hasOwnProperty]. *)
Lemma flattenTranslations_returns :
  forall v : value, flattenable v = true ->
    exists m, result (flattenTranslations v) = Return m.
Proof.
  fix IH 1. intros v Hv.
  destruct v as [| | b | n | s | items | props];
    try (exists ∅; reflexivity).
  - (* a string *)
    destruct (flatten_entries_returns (fun _ => ret ∅) (string_entries s 0))
      as [added H].
    + eapply Forall_impl; [apply string_entries_leaves |].
      intros p Hp Hn. congruence.
    + exists (added ∪ ∅). apply H.
  - (* an array *)
    cbn [flattenTranslations]. rewrite flatten_items_entries.
    destruct (flatten_entries_returns flattenTranslations (item_entries items 0))
      as [added H].
    + cbn [flattenable] in Hv. generalize 0%nat. revert items Hv.
      fix IHitems 1. intros [| w items] Hv index; [constructor |].
      cbn [forallb] in Hv. apply andb_true_iff in Hv as [Hw Hv].
      constructor; [| now apply IHitems].
      intros Hn. apply IH. now rewrite not_leaf_flattenable.
    + exists (added ∪ ∅). apply H.
  - (* an object *)
    cbn [flattenTranslations]. cbn [flattenable] in Hv.
    rewrite (plain_keys_not_shadowed props Hv).
    destruct (flatten_entries_returns flattenTranslations props) as [added H].
    + revert props Hv. fix IHprops 1. intros [| [i w] props] Hv; [constructor |].
      apply plain_keys_cons in Hv as (_ & Hw & Hv).
      constructor; [| now apply IHprops].
      intros Hn. apply IH. now rewrite not_leaf_flattenable.
    + exists (added ∪ ∅). apply H.
Qed.

Lemma plain_entries_flatten (props : list (string * value)) :
  plain_keys (JObj props) = true ->
  Forall (fun p => flattens flattenTranslations (snd p)) props.
Proof.
  induction props as [| [i w] props IH]; intros H; [constructor |].
  apply plain_keys_cons in H as (_ & Hw & H).
  constructor; [| now apply IH].
  intros Hn. apply flattenTranslations_returns. now rewrite not_leaf_flattenable.
Qed.

(** C6, as the code has it.  In a tree none of whose mappings has a property
    named [hasOwnProperty], for every entry whose key is not [__proto__] and
    whose value is neither an array nor of type ['object'] (a string, a
    number, a boolean, [undefined]), [flattenTranslations] returns a mapping
    that has the entry's unmodified key, and the key holds the entry's value
    unless an entry after it in the tree flattens to the same key. *)
Theorem flatten_copies_scalars (pre post : list (string * value))
    (k : string) (v : value) :
  plain_keys (JObj (pre ++ (k, v) :: post)) = true ->
  k <> "__proto__" ->
  is_scalar v = true ->
  exists flat later,
    result (flattenTranslations (JObj (pre ++ (k, v) :: post))) = Return flat
    /\ result (flattenTranslations (JObj post)) = Return later
    /\ is_Some (flat !! k)
    /\ (later !! k = None -> flat !! k = Some v).
Proof.
  intros Hplain Hk Hv.
  pose proof (plain_keys_not_shadowed _ Hplain) as Hs.
  pose proof (plain_entries_flatten _ Hplain) as Hall.
  apply Forall_app in Hall as [Hpre Hpost].
  apply Forall_cons in Hpost as [Hkv Hpost].
  rewrite plain_keys_app in Hplain. apply andb_true_iff in Hplain as [_ Hplain].
  apply plain_keys_cons in Hplain as (_ & _ & Hplain).
  destruct (flatten_entries_split flattenTranslations pre post k v Hpre Hkv Hpost)
    as (before & added & later & Ha & Hl & Hflat).
  exists (later ∪ (added ∪ before)), later.
  cbn [flattenTranslations]. rewrite Hs, (plain_keys_not_shadowed _ Hplain).
  split; [exact Hflat |].
  split; [rewrite Hl; now rewrite (right_id_L ∅ (∪)) |].
  specialize (Ha before).
  rewrite (flatten_entry_leaf _ _ _ _ (is_scalar_leaf v Hv)) in Ha.
  rewrite assign_other in Ha by exact Hk.
  injection Ha as Ha. rewrite <- Ha.
  split.
  - apply lookup_union_is_Some. right. rewrite lookup_insert_eq. eauto.
  - intros Hlater. rewrite lookup_union_r by exact Hlater. apply lookup_insert_eq.
Qed.

Lemma flatten_copies_scalars_witness :
  exists flat,
    result (flattenTranslations
              (JObj [("title", JStr "Hello");
                     ("menu", JObj [("open", JStr "Open")])])) = Return flat
    /\ flat !! "title" = Some (JStr "Hello").
Proof.
  destruct (flatten_copies_scalars [] [("menu", JObj [("open", JStr "Open")])]
              "title" (JStr "Hello") eq_refl ltac:(discriminate) eq_refl)
    as (flat & later & Hflat & Hlater & _ & Hval).
  exists flat. split; [exact Hflat |].
  apply Hval.
  assert (E : result (flattenTranslations (JObj [("menu", JObj [("open", JStr "Open")])]))
              = Return {[ "menu.open" := JStr "Open" ]}) by (vm_compute; reflexivity).
  rewrite E in Hlater. injection Hlater as <-.
  vm_compute. reflexivity.
Defined.

(** C6 as stated fails: the scalar entry ["a.b"] is overwritten by the
    nested entry after it that flattens to the same key. *)
Lemma flatten_overwrites_scalar :
  exists flat,
    result (flattenTranslations
              (JObj [("a.b", JStr "x"); ("a", JObj [("b", JStr "y")])]))
    = Return flat
    /\ flat !! "a.b" = Some (JStr "y")
    /\ flat !! "a.b" <> Some (JStr "x").
Proof.
  eexists. split; [reflexivity |].
  split; [reflexivity | discriminate].
Qed.

(** A [null] entry is of type ['object'] and passes the test
    [objType !== null], which compares the type name: it is flattened as an
    object without entries, and its key is dropped. *)
Lemma flatten_drops_null :
  result (flattenTranslations (JObj [("n", JNull)])) = Return ∅
  /\ is_scalar JNull = false.
Proof. split; reflexivity. Qed.

(** The two trees the hypotheses of C6 leave out: a property named
    [hasOwnProperty] makes the loop's own test throw, and an assignment to
    [__proto__] leaves no property. *)
Lemma flatten_special_keys :
  result (flattenTranslations (JObj [("a", JStr "x"); ("hasOwnProperty", JStr "y")]))
  = ThrowTypeError
  /\ result (flattenTranslations (JObj [("__proto__", JStr "x")])) = Return ∅.
Proof. split; reflexivity. Qed.

(** ** The examples of the specification *)

Example render_replaces_placeholder :
  render ("{", "}") true (Some "en") (JStr "hello {name}")
    (Replacements {[ "name" := "Ada" ]}) JNull
  = ([], Return (JStr "hello Ada")).
Proof. reflexivity. Qed.

Example render_keeps_unknown_placeholder :
  render ("{", "}") true (Some "en") (JStr "hello {missing}") NoOptions JNull
  = ([WarnPlaceholder "hello {missing}" "{missing}"],
     Return (JStr "hello {missing}")).
Proof. reflexivity. Qed.

Example render_selects_english_variants :
  render ("{", "}") true (Some "en") (JStr "one:::many") NoOptions (JNum (Int 1))
  = ([], Return (JStr "one"))
  /\ render ("{", "}") true (Some "en") (JStr "one:::many") NoOptions (JNum (Int 5))
     = ([], Return (JStr "many")).
Proof. split; reflexivity. Qed.

Example render_selects_polish_variant :
  render ("{", "}") true (Some "pl") (JStr "jeden:::kilka:::wiele") NoOptions
    (JNum (Int 2))
  = ([], Return (JStr "kilka")).
Proof. reflexivity. Qed.

Example render_missing_variant_gives_first :
  render ("{", "}") true (Some "ru") (JStr "one ::: many") NoOptions (JNum (Int 5))
  = ([WarnPluralizationNotProvided (JStr "one ::: many") (Some "ru") 2],
     Return (JStr "one")).
Proof. reflexivity. Qed.

Example translate_without_table_gives_default :
  translateInLanguage default_config initial_state (Some "fr") "greeting"
    (Some "Hi") NoOptions JNull
  = ([TranslationNotFound "fr" "greeting" "Hi"], Return (JStr "Hi")).
Proof. reflexivity. Qed.

Example translateIn_without_locale_gives_default :
  translateInLanguage default_config initial_state None "greeting"
    (Some "Hi {name}") (Replacements {[ "name" := "Ada" ]}) JNull
  = ([WarnLocaleNotSet "greeting"], Return (JStr "Hi {name}")).
Proof. reflexivity. Qed.

(** * Further properties *)

(** ** Plural rules *)

Lemma switch_label (code : string) (groups : list plurals.case_group) :
  plurals.switch (Some code) groups = plurals.default_case
  \/ In code (plurals.labels (plurals.switch (Some code) groups)).
Proof.
  induction groups as [| g groups IH]; simpl; [now left |].
  destruct (existsb (String.eqb code) (plurals.labels g)) eqn:E; [| exact IH].
  right. apply existsb_exists in E as (l & Hl & Heq).
  apply String.eqb_eq in Heq. now subst l.
Qed.

Lemma rem_add_100 (z m : Z) :
  (0 <= z)%Z -> (m = 10 \/ m = 100)%Z -> Z.rem (z + 100) m = Z.rem z m.
Proof.
  intros Hz [-> | ->]; rewrite !Z.rem_mod_nonneg by lia.
  - replace (z + 100)%Z with (z + 10 * 10)%Z by lia. apply Z.mod_add. lia.
  - replace (z + 100)%Z with (z + 1 * 100)%Z by lia. apply Z.mod_add. lia.
Qed.

(** X1: whatever the language code (a known one, an unknown one, [null]) and
    whatever the number (an integer, a fraction, [NaN], an infinity), the
    plural index is at most 5 and below the form count of the rule that was
    taken. *)
Theorem getTranslationIndex_bounded (languageCode : option string) (n : number) :
  (plurals.getTranslationIndex languageCode n
   < plurals.forms (plurals.switch languageCode plurals.cases))%nat
  /\ (plurals.getTranslationIndex languageCode n <= 5)%nat.
Proof.
  pose proof (plurals_facts.body_below_forms
                (plurals.switch languageCode plurals.cases) n
                (plurals_facts.switch_in languageCode plurals.cases)) as [H1 H2].
  unfold plurals.getTranslationIndex. split; [exact H1 | lia].
Qed.

(** X2: a count of 1 selects the first form in every language, known or not,
    except Javanese, Mandinka and Arabic, whose rules give it the second. *)
Theorem singular_selects_first_form (code : string) :
  (code <> "jv" /\ code <> "mnk" /\ code <> "ar" ->
   plurals.getTranslationIndex (Some code) (Int 1) = 0%nat)
  /\ (code = "jv" \/ code = "mnk" \/ code = "ar" ->
      plurals.getTranslationIndex (Some code) (Int 1) = 1%nat).
Proof.
  split.
  - intros (Hjv & Hmnk & Har).
    unfold plurals.getTranslationIndex.
    pose proof (switch_label code plurals.cases) as Hl.
    pose proof (plurals_facts.switch_in (Some code) plurals.cases) as Hg.
    destruct (plurals.switch (Some code) plurals.cases) as [ls fs b] eqn:E.
    clear E. simpl in Hg.
    repeat (destruct Hg as [Hg | Hg];
            [ injection Hg as <- <- <-;
              first [ reflexivity
                    | exfalso; destruct Hl as [Hl | Hl];
                      [ discriminate Hl | simpl in Hl; intuition congruence ] ]
            | ]).
    destruct Hg.
  - intros [-> | [-> | ->]]; reflexivity.
Qed.

Lemma singular_selects_first_form_witness :
  plurals.getTranslationIndex (Some "de") (Int 1) = 0%nat
  /\ plurals.getTranslationIndex (Some "ar") (Int 1) = 1%nat.
Proof.
  split.
  - apply (proj1 (singular_selects_first_form "de")).
    repeat split; discriminate.
  - apply (proj2 (singular_selects_first_form "ar")). tauto.
Defined.

(** X3: the rules of Icelandic, Lithuanian, Slovenian and of the Russian
    group look at the count only through [n % 10] and [n % 100]: for a count
    that is not negative, adding 100 does not change the index. *)
Theorem modular_rules_have_period_100 (code : string) (n : Z) :
  In code ["is"; "lt"; "be"; "bs"; "hr"; "ru"; "sr"; "uk"; "sl"] ->
  (0 <= n)%Z ->
  plurals.getTranslationIndex (Some code) (Int (n + 100))
  = plurals.getTranslationIndex (Some code) (Int n).
Proof.
  intros Hc Hn. simpl in Hc.
  repeat (destruct Hc as [<- | Hc];
          [ unfold plurals.getTranslationIndex; simpl plurals.switch;
            unfold plurals.body;
            rewrite !num_rem_Int, !rem_add_100 by (lia || tauto);
            reflexivity | ]).
  destruct Hc.
Qed.

Lemma modular_rules_have_period_100_witness :
  plurals.getTranslationIndex (Some "ru") (Int 122)
  = plurals.getTranslationIndex (Some "ru") (Int 22).
Proof.
  apply (modular_rules_have_period_100 "ru" 22); [| lia].
  simpl. tauto.
Defined.

(** ** The flattener, further *)

Lemma bind_ext {A B} (c : M A) (k k' : A -> M B) :
  (forall a, k a = k' a) -> bind c k = bind c k'.
Proof. intros H. destruct c as [es [a |]]; simpl; [now rewrite H | reflexivity]. Qed.

Global Instance append_inj (p : string) : Inj (=) (=) (String.append p).
Proof.
  intros s1 s2. induction p as [| c p IH]; simpl; [auto |].
  intros H. injection H. exact IH.
Qed.

(** A key of the inner loop has a dot in it. *)
Lemma dotted_key (i x : string) : occurs "." (String.append (i +:+ ".") x) = true.
Proof.
  induction i as [| c i IH].
  - change (occurs "." (String "." x) = true). cbn [occurs].
    apply orb_true_iff. left. simpl. now destruct x.
  - change (occurs "." (String c (String.append (i +:+ ".") x)) = true).
    cbn [occurs]. rewrite IH. apply orb_true_r.
Qed.

Lemma dotted_key_ordinary (i x : string) :
  String.append (i +:+ ".") x <> "__proto__"
  /\ String.append (i +:+ ".") x <> "hasOwnProperty".
Proof.
  pose proof (dotted_key i x) as H.
  split; intros E; rewrite E in H; discriminate H.
Qed.

Lemma leaf_plain_keys (v : value) : is_leaf v = true -> plain_keys v = true.
Proof. now destruct v. Qed.

Lemma not_plain_not_leaf (v : value) : plain_keys v = false -> is_leaf v = false.
Proof. destruct v; try discriminate. reflexivity. Qed.

Lemma has_key_existsb (name : string) (entries : list (string * value)) :
  existsb (fun p => String.eqb (fst p) name) entries = false
  <-> name ∉ entries.*1.
Proof.
  induction entries as [| [i v] entries IH]; simpl.
  - split; [intros _ | reflexivity]. apply not_elem_of_nil.
  - rewrite not_elem_of_cons, orb_false_iff, IH.
    destruct (String.eqb_spec i name) as [-> | Hne]; intuition congruence.
Qed.

Section flatten_more.

Variable flatten : value -> M (gmap string value).

(** With its [hasOwnProperty] test shadowed the loop throws at its first
    turn. *)
Lemma flatten_entries_shadowed (entries : list (string * value))
    (toReturn : gmap string value) :
  entries <> [] ->
  result (flatten_entries flatten true entries toReturn) = ThrowTypeError.
Proof. now destruct entries as [| [i v] entries]. Qed.

(** The loop throws when [flatten] throws on one of the nested mappings,
    those before it being flattened. *)
Lemma flatten_entries_throws (entries : list (string * value)) :
  forallb (fun p => plain_keys (snd p)) entries = false ->
  Forall (fun p => (plain_keys (snd p) = true -> flattens flatten (snd p))
                   /\ (plain_keys (snd p) = false ->
                       result (flatten (snd p)) = ThrowTypeError)) entries ->
  forall toReturn,
    result (flatten_entries flatten false entries toReturn) = ThrowTypeError.
Proof.
  intros Hf H. induction H as [| [i v] entries [Hr Ht] _ IH];
    intros toReturn; [discriminate |].
  cbn [forallb snd] in *. cbn [flatten_entries].
  destruct (plain_keys v) eqn:Ev.
  - destruct (flatten_entry_returns flatten i v (Hr eq_refl)) as [added Ha].
    rewrite (result_bind _ _ _ (Ha toReturn)). now apply IH.
  - apply result_bind_throw.
    rewrite flatten_entry_mapping by now apply not_plain_not_leaf.
    apply result_bind_throw. now apply Ht.
Qed.

(** One turn of the loop keeps [toReturn] free of nested mappings, and of
    the keys [__proto__] and [hasOwnProperty]. *)
Lemma flatten_entry_invariant (i : string) (v : value)
    (toReturn flat : gmap string value) :
  (forall m, result (flatten v) = Return m ->
             map_Forall (fun _ w => is_leaf w = true) m) ->
  i <> "hasOwnProperty" ->
  map_Forall (fun k w => is_leaf w = true
                         /\ k <> "__proto__" /\ k <> "hasOwnProperty") toReturn ->
  result (flatten_entry flatten i v toReturn) = Return flat ->
  map_Forall (fun k w => is_leaf w = true
                         /\ k <> "__proto__" /\ k <> "hasOwnProperty") flat.
Proof.
  intros Hv Hi Hacc. destruct (is_leaf v) eqn:El.
  - rewrite flatten_entry_leaf by exact El. intros [= <-].
    unfold assign. destruct (String.eqb_spec i "__proto__") as [-> | Hp];
      [exact Hacc |].
    now apply map_Forall_insert_2.
  - rewrite flatten_entry_mapping by exact El. intros H.
    apply result_bind_inv in H as (m & Hm & H). injection H as <-.
    apply map_Forall_union_2; [| exact Hacc].
    intros j w Hj. apply lookup_kmap_Some in Hj as (x & -> & Hx); [| apply _].
    split; [exact (Hv m Hm x w Hx) | apply dotted_key_ordinary].
Qed.

Lemma flatten_entries_invariant (entries : list (string * value)) :
  Forall (fun p => (forall m, result (flatten (snd p)) = Return m ->
                              map_Forall (fun _ w => is_leaf w = true) m)
                   /\ fst p <> "hasOwnProperty") entries ->
  forall toReturn flat,
    map_Forall (fun k w => is_leaf w = true
                           /\ k <> "__proto__" /\ k <> "hasOwnProperty") toReturn ->
    result (flatten_entries flatten false entries toReturn) = Return flat ->
    map_Forall (fun k w => is_leaf w = true
                           /\ k <> "__proto__" /\ k <> "hasOwnProperty") flat.
Proof.
  induction 1 as [| [i v] entries [Hv Hi] _ IH]; intros toReturn flat Hacc;
    cbn [flatten_entries].
  - now intros [= <-].
  - intros H. apply result_bind_inv in H as (acc & Hacc' & H).
    revert H. apply IH.
    exact (flatten_entry_invariant i v toReturn acc Hv Hi Hacc Hacc').
Qed.

(** The same for the values alone, whatever the keys. *)
Lemma flatten_entries_leaves (entries : list (string * value)) :
  Forall (fun p => forall m, result (flatten (snd p)) = Return m ->
                             map_Forall (fun _ w => is_leaf w = true) m) entries ->
  forall toReturn flat,
    map_Forall (fun _ w => is_leaf w = true) toReturn ->
    result (flatten_entries flatten false entries toReturn) = Return flat ->
    map_Forall (fun _ w => is_leaf w = true) flat.
Proof.
  induction 1 as [| [i v] entries Hv _ IH]; intros toReturn flat Hacc;
    cbn [flatten_entries].
  - now intros [= <-].
  - intros H. apply result_bind_inv in H as (acc & Hacc' & H).
    revert H. apply IH. simpl in Hv. revert Hacc'.
    destruct (is_leaf v) eqn:El.
    + rewrite flatten_entry_leaf by exact El. intros [= <-].
      unfold assign. destruct (String.eqb i "__proto__"); [exact Hacc |].
      now apply map_Forall_insert_2.
    + rewrite flatten_entry_mapping by exact El. intros H.
      apply result_bind_inv in H as (m & Hm & H). injection H as <-.
      apply map_Forall_union_2; [| exact Hacc].
      intros j w Hj. apply lookup_kmap_Some in Hj as (x & -> & Hx); [| apply _].
      exact (Hv m Hm x w Hx).
Qed.

(** A tree of leaves is copied entry by entry, a later entry winning over an
    earlier one of the same key. *)
Lemma flatten_entries_flat (entries : list (string * value))
    (toReturn : gmap string value) :
  Forall (fun p => is_leaf (snd p) = true /\ fst p <> "__proto__") entries ->
  result (flatten_entries flatten false entries toReturn)
  = Return (list_to_map (rev entries) ∪ toReturn).
Proof.
  intros H. revert toReturn.
  induction H as [| [i v] entries [Hv Hi] _ IH]; intros toReturn;
    cbn [flatten_entries].
  - simpl. now rewrite (left_id_L ∅ (∪)).
  - simpl in Hv, Hi.
    rewrite (result_bind _ _ _ (flatten_entry_leaf flatten i v toReturn Hv)).
    rewrite IH, assign_other by exact Hi.
    simpl rev. rewrite list_to_map_app. simpl list_to_map.
    rewrite insert_empty, <- (assoc_L (∪)).
    now rewrite <- insert_union_singleton_l.
Qed.

End flatten_more.

Lemma forallb_item_entries (items : list value) (index : nat) :
  forallb (fun p => plain_keys (snd p)) (item_entries items index)
  = forallb plain_keys items.
Proof.
  revert index. induction items as [| v items IH]; intros index; [reflexivity |].
  cbn [item_entries forallb snd]. now rewrite IH.
Qed.

(** [flattenTranslations] throws for a tree one of whose mappings has a
    property of its own named [hasOwnProperty]. *)
Lemma flattenTranslations_throws :
  forall v : value, flattenable v = false ->
    result (flattenTranslations v) = ThrowTypeError.
Proof.
  fix IH 1. intros v Hv.
  destruct v as [| | b | n | s | items | props]; try discriminate Hv.
  - (* an array *)
    cbn [flattenTranslations]. rewrite flatten_items_entries.
    cbn [flattenable] in Hv.
    apply flatten_entries_throws; [now rewrite forallb_item_entries |].
    clear Hv. generalize 0%nat. revert items.
    fix IHitems 1. intros [| w items] index; [constructor |].
    constructor; [| apply IHitems]. cbn [snd]. split.
    + intros Hw Hn. apply flattenTranslations_returns.
      now rewrite not_leaf_flattenable.
    + intros Hw. apply IH.
      now rewrite not_leaf_flattenable by now apply not_plain_not_leaf.
  - (* an object *)
    cbn [flattenTranslations flattenable plain_keys shadows_hasOwnProperty] in *.
    destruct (existsb (fun p => String.eqb (fst p) "hasOwnProperty") props) eqn:Es.
    + apply flatten_entries_shadowed. now intros ->.
    + cbn [negb andb] in Hv. apply flatten_entries_throws; [exact Hv |].
      clear Hv Es. revert props.
      fix IHprops 1. intros [| [i w] props]; [constructor |].
      constructor; [| apply IHprops]. cbn [snd]. split.
      * intros Hw Hn. apply flattenTranslations_returns.
        now rewrite not_leaf_flattenable.
      * intros Hw. apply IH.
        now rewrite not_leaf_flattenable by now apply not_plain_not_leaf.
Qed.

Lemma flattenTranslations_leaves :
  forall (v : value) (m : gmap string value),
    result (flattenTranslations v) = Return m ->
    map_Forall (fun _ w => is_leaf w = true) m.
Proof.
  fix IH 1. intros v m.
  destruct v as [| | b | n | s | items | props];
    try (intros [= <-]; apply map_Forall_empty).
  - (* a string *)
    cbn [flattenTranslations].
    apply flatten_entries_leaves; [| apply map_Forall_empty].
    apply Forall_forall. intros p _ m' [= <-]. apply map_Forall_empty.
  - (* an array *)
    cbn [flattenTranslations]. rewrite flatten_items_entries.
    apply flatten_entries_leaves; [| apply map_Forall_empty].
    generalize 0%nat. revert items.
    fix IHitems 1. intros [| w items] index; [constructor |].
    constructor; [apply IH | apply IHitems].
  - (* an object *)
    cbn [flattenTranslations].
    destruct (shadows_hasOwnProperty (JObj props)).
    + destruct props as [| [i w] props]; [| discriminate].
      intros [= <-]. apply map_Forall_empty.
    + apply flatten_entries_leaves; [| apply map_Forall_empty].
      revert props. fix IHprops 1. intros [| [i w] props]; [constructor |].
      constructor; [apply IH | apply IHprops].
Qed.

(** X4: [flattenTranslations] returns exactly for the trees none of whose
    mappings has a property of its own named [hasOwnProperty], and throws
    for the others; what it returns holds no nested mapping: every value of
    it is an array or is not of type ['object']. *)
Theorem flatten_output_is_flat (tree : value) :
  (flattenable tree = true ->
   exists flat,
     result (flattenTranslations tree) = Return flat
     /\ map_Forall (fun _ v => is_leaf v = true) flat)
  /\ (flattenable tree = false ->
      result (flattenTranslations tree) = ThrowTypeError).
Proof.
  split.
  - intros H. destruct (flattenTranslations_returns tree H) as [flat Hflat].
    exists flat. split; [exact Hflat |].
    now apply (flattenTranslations_leaves tree).
  - apply flattenTranslations_throws.
Qed.

Lemma flatten_output_is_flat_witness :
  (exists flat,
      result (flattenTranslations
                (JObj [("a", JObj [("b", JArr [JObj []])])])) = Return flat
      /\ map_Forall (fun _ v => is_leaf v = true) flat)
  /\ result (flattenTranslations
               (JObj [("a", JObj [("hasOwnProperty", JStr "x")])]))
     = ThrowTypeError.
Proof.
  split.
  - now apply (proj1 (flatten_output_is_flat
                        (JObj [("a", JObj [("b", JArr [JObj []])])]))).
  - now apply (proj2 (flatten_output_is_flat
                        (JObj [("a", JObj [("hasOwnProperty", JStr "x")])]))).
Defined.

(** An entry of a plain tree adds [added] on top of what the entries before
    it left, and the entries after it add [later] on top of that. *)
Lemma flatten_entry_lookup (pre post : list (string * value))
    (entry : string * value) :
  plain_keys (JObj (pre ++ entry :: post)) = true ->
  exists flat before added later,
    result (flattenTranslations (JObj (pre ++ entry :: post))) = Return flat
    /\ (forall toReturn,
          result (flatten_entry flattenTranslations (fst entry) (snd entry) toReturn)
          = Return (added ∪ toReturn))
    /\ result (flattenTranslations (JObj post)) = Return later
    /\ flat = later ∪ (added ∪ before).
Proof.
  intros Hplain. destruct entry as [i v].
  pose proof (plain_keys_not_shadowed _ Hplain) as Hs.
  pose proof (plain_entries_flatten _ Hplain) as Hall.
  apply Forall_app in Hall as [Hpre Hpost].
  apply Forall_cons in Hpost as [Hiv Hpost].
  rewrite plain_keys_app in Hplain. apply andb_true_iff in Hplain as [_ Hplain].
  apply plain_keys_cons in Hplain as (_ & _ & Hplain).
  destruct (flatten_entries_split flattenTranslations pre post i v Hpre Hiv Hpost)
    as (before & added & later & Ha & Hl & Hflat).
  exists (later ∪ (added ∪ before)), before, added, later.
  cbn [flattenTranslations]. rewrite Hs, (plain_keys_not_shadowed _ Hplain).
  split; [exact Hflat |]. split; [exact Ha |].
  split; [| reflexivity].
  rewrite Hl. now rewrite (right_id_L ∅ (∪)).
Qed.

(** X5: in a tree none of whose mappings has a property named
    [hasOwnProperty], an array entry whose key is not [__proto__] is copied
    whole under its own key, whatever it holds (arrays are not looked
    into): the key holds the array unless an entry after it in the tree
    flattens to the same key. *)
Theorem flatten_keeps_arrays (pre post : list (string * value))
    (k : string) (items : list value) :
  plain_keys (JObj (pre ++ (k, JArr items) :: post)) = true ->
  k <> "__proto__" ->
  exists flat later,
    result (flattenTranslations (JObj (pre ++ (k, JArr items) :: post))) = Return flat
    /\ result (flattenTranslations (JObj post)) = Return later
    /\ is_Some (flat !! k)
    /\ (later !! k = None -> flat !! k = Some (JArr items)).
Proof.
  intros Hplain Hk.
  destruct (flatten_entry_lookup pre post (k, JArr items) Hplain)
    as (flat & before & added & later & Hflat & Hadd & Hlater & ->).
  exists (later ∪ (added ∪ before)), later.
  split; [exact Hflat |]. split; [exact Hlater |].
  specialize (Hadd before). cbn [fst snd] in Hadd.
  rewrite flatten_entry_leaf in Hadd by reflexivity.
  rewrite assign_other in Hadd by exact Hk.
  injection Hadd as Hadd. rewrite <- Hadd.
  split.
  - apply lookup_union_is_Some. right. rewrite lookup_insert_eq. eauto.
  - intros Hl. rewrite lookup_union_r by exact Hl. apply lookup_insert_eq.
Qed.

Lemma flatten_keeps_arrays_witness :
  exists flat,
    result (flattenTranslations
              (JObj [("n", JArr [JStr "one"; JObj [("x", JNull)]])])) = Return flat
    /\ flat !! "n" = Some (JArr [JStr "one"; JObj [("x", JNull)]]).
Proof.
  destruct (flatten_keeps_arrays [] [] "n" [JStr "one"; JObj [("x", JNull)]]
              eq_refl ltac:(discriminate))
    as (flat & later & Hflat & Hlater & _ & Hval).
  exists flat. split; [exact Hflat |]. apply Hval.
  assert (E : result (flattenTranslations (JObj [])) = Return ∅) by reflexivity.
  rewrite E in Hlater. injection Hlater as <-. apply lookup_empty.
Defined.

(** X6: in a tree none of whose mappings has a property named
    [hasOwnProperty], a nested mapping is flattened and its keys are
    prefixed with the parent key and a dot: what the child flattens to under
    [x] is found under [i.x], unless an entry after the parent flattens to
    the same key. *)
Theorem flatten_rekeys_nested (pre post inner : list (string * value))
    (i x : string) (w : value) (child : gmap string value) :
  plain_keys (JObj (pre ++ (i, JObj inner) :: post)) = true ->
  result (flattenTranslations (JObj inner)) = Return child ->
  child !! x = Some w ->
  exists flat later,
    result (flattenTranslations (JObj (pre ++ (i, JObj inner) :: post))) = Return flat
    /\ result (flattenTranslations (JObj post)) = Return later
    /\ is_Some (flat !! ((i +:+ ".") +:+ x))
    /\ (later !! ((i +:+ ".") +:+ x) = None ->
        flat !! ((i +:+ ".") +:+ x) = Some w)
    /\ is_leaf w = true.
Proof.
  intros Hplain Hchild Hx.
  destruct (flatten_entry_lookup pre post (i, JObj inner) Hplain)
    as (flat & before & added & later & Hflat & Hadd & Hlater & ->).
  exists (later ∪ (added ∪ before)), later.
  split; [exact Hflat |]. split; [exact Hlater |].
  specialize (Hadd before). cbn [fst snd] in Hadd.
  rewrite flatten_entry_mapping in Hadd by reflexivity.
  rewrite (result_bind _ _ _ Hchild) in Hadd.
  simpl in Hadd. injection Hadd as Hadd. rewrite <- Hadd.
  assert (Hk : (kmap (String.append (i +:+ ".")) child ∪ before : gmap string value)
               !! ((i +:+ ".") +:+ x) = Some w).
  { apply lookup_union_Some_l.
    rewrite lookup_kmap by apply _. exact Hx. }
  split; [| split].
  - apply lookup_union_is_Some. right. rewrite Hk. eauto.
  - intros Hl. rewrite lookup_union_r by exact Hl. exact Hk.
  - exact (flattenTranslations_leaves (JObj inner) child Hchild x w Hx).
Qed.

Lemma flatten_rekeys_nested_witness :
  exists flat,
    result (flattenTranslations
              (JObj [("menu", JObj [("open", JStr "Open")])])) = Return flat
    /\ flat !! "menu.open" = Some (JStr "Open").
Proof.
  destruct (flatten_rekeys_nested [] [] [("open", JStr "Open")] "menu" "open"
              (JStr "Open") {[ "open" := JStr "Open" ]})
    as (flat & later & Hflat & Hlater & _ & Hval & _).
  - reflexivity.
  - vm_compute. reflexivity.
  - reflexivity.
  - exists flat. split; [exact Hflat |].
    apply Hval.
    assert (E : result (flattenTranslations (JObj [])) = Return ∅) by reflexivity.
    rewrite E in Hlater. injection Hlater as <-. apply lookup_empty.
Defined.

Lemma flatten_flat_entries (entries : list (string * value)) :
  NoDup (entries.*1) ->
  "hasOwnProperty" ∉ entries.*1 ->
  "__proto__" ∉ entries.*1 ->
  Forall (fun p => is_leaf (snd p) = true) entries ->
  result (flattenTranslations (JObj entries)) = Return (list_to_map entries).
Proof.
  intros Hnd Hh Hp Hleaf. cbn [flattenTranslations shadows_hasOwnProperty].
  apply has_key_existsb in Hh. rewrite Hh.
  rewrite flatten_entries_flat.
  - rewrite (right_id_L ∅ (∪)). f_equal.
    symmetry. apply list_to_map_proper; [exact Hnd |].
    apply Permutation_rev.
  - apply Forall_forall. intros [i v] Hin. cbn [fst snd]. split.
    + exact (proj1 (Forall_forall _ _) Hleaf (i, v) Hin).
    + intros ->. apply Hp. apply list_elem_of_fmap. now exists ("__proto__", v).
Qed.

(** X8: a tree that is flat already (its values are arrays or not of type
    ['object'], its keys are distinct, as the keys of an object are, and
    none is [hasOwnProperty] or [__proto__]) is flattened to itself: every
    entry is in the output with its value, and nothing else is. *)
Theorem flatten_of_flat_tree (entries : list (string * value)) :
  NoDup (entries.*1) ->
  "hasOwnProperty" ∉ entries.*1 ->
  "__proto__" ∉ entries.*1 ->
  Forall (fun p => is_leaf (snd p) = true) entries ->
  result (flattenTranslations (JObj entries)) = Return (list_to_map entries)
  /\ (forall k v, (k, v) ∈ entries ->
        (list_to_map entries : gmap string value) !! k = Some v)
  /\ (forall k, (list_to_map entries : gmap string value) !! k = None ->
        k ∉ entries.*1).
Proof.
  intros Hnd Hh Hp Hleaf. split; [now apply flatten_flat_entries |]. split.
  - intros k v Hin. now apply elem_of_list_to_map_1.
  - intros k Hk. now apply not_elem_of_list_to_map in Hk.
Qed.

Lemma flatten_of_flat_tree_witness :
  result (flattenTranslations (JObj [("a", JStr "x"); ("b", JArr [JStr "y"])]))
  = Return (list_to_map [("a", JStr "x"); ("b", JArr [JStr "y"])]).
Proof.
  apply (flatten_of_flat_tree [("a", JStr "x"); ("b", JArr [JStr "y"])]).
  - apply (bool_decide_unpack _). vm_compute. exact I.
  - apply (bool_decide_unpack _). vm_compute. exact I.
  - apply (bool_decide_unpack _). vm_compute. exact I.
  - repeat constructor.
Defined.

Lemma flattenTranslations_invariant (props : list (string * value))
    (flat : gmap string value) :
  result (flattenTranslations (JObj props)) = Return flat ->
  map_Forall (fun k w => is_leaf w = true
                         /\ k <> "__proto__" /\ k <> "hasOwnProperty") flat.
Proof.
  cbn [flattenTranslations shadows_hasOwnProperty].
  destruct (existsb (fun p => String.eqb (fst p) "hasOwnProperty") props) eqn:Es.
  - destruct props as [| [i w] props]; [discriminate Es | discriminate].
  - apply flatten_entries_invariant; [| apply map_Forall_empty].
    apply has_key_existsb in Es.
    apply Forall_forall. intros [i w] Hin. cbn [fst snd]. split.
    + apply flattenTranslations_leaves.
    + intros ->. apply Es. apply list_elem_of_fmap.
      now exists ("hasOwnProperty", w).
Qed.

(** X9: flattening is idempotent: the mapping an object tree flattens to,
    taken as a tree again, flattens to itself. *)
Theorem flatten_idempotent (props : list (string * value)) :
  plain_keys (JObj props) = true ->
  exists flat,
    result (flattenTranslations (JObj props)) = Return flat
    /\ result (flattenTranslations (JObj (map_to_list flat))) = Return flat.
Proof.
  intros Hplain.
  destruct (flattenTranslations_returns (JObj props) Hplain) as [flat Hflat].
  pose proof (flattenTranslations_invariant props flat Hflat) as Hinv.
  exists flat. split; [exact Hflat |].
  rewrite flatten_flat_entries.
  - now rewrite list_to_map_to_list.
  - apply NoDup_fst_map_to_list.
  - intros Hin. apply list_elem_of_fmap in Hin as ([k v] & Hk & Hin).
    cbn [fst] in Hk. subst k. apply elem_of_map_to_list in Hin.
    now destruct (Hinv _ _ Hin) as (_ & _ & H).
  - intros Hin. apply list_elem_of_fmap in Hin as ([k v] & Hk & Hin).
    cbn [fst] in Hk. subst k. apply elem_of_map_to_list in Hin.
    now destruct (Hinv _ _ Hin) as (_ & H & _).
  - apply Forall_forall. intros [k v] Hin.
    apply elem_of_map_to_list in Hin.
    now destruct (Hinv _ _ Hin) as (H & _).
Qed.

Lemma flatten_idempotent_witness :
  exists flat,
    result (flattenTranslations
              (JObj [("menu", JObj [("open", JStr "Open")]); ("__proto__", JNull)]))
    = Return flat
    /\ result (flattenTranslations (JObj (map_to_list flat))) = Return flat.
Proof.
  now apply (flatten_idempotent
               [("menu", JObj [("open", JStr "Open")]); ("__proto__", JNull)]).
Defined.

(** ** The renderer, further *)

Lemma result_bind_congr {A B} (c c' : M A) (k k' : A -> M B) :
  result c = result c' ->
  (forall a, result (k a) = result (k' a)) ->
  result (bind c k) = result (bind c' k').
Proof.
  destruct c as [es [a |]], c' as [es' [a' |]]; simpl; intros [=] Hk; subst;
    [| reflexivity].
  unfold bind, result. specialize (Hk a').
  now destruct (k a'), (k' a').
Qed.

Lemma events_bind {A B} (c : M A) (k : A -> M B) :
  events (bind c k)
  = events c ++ match result c with
                | Return a => events (k a)
                | ThrowTypeError => []
                end.
Proof.
  destruct c as [es [a |]]; unfold bind, events, result; simpl.
  - now destruct (k a).
  - now rewrite app_nil_r.
Qed.

Lemma events_bind_nil {A B} (c : M A) (k : A -> M B) :
  events c = [] -> (forall a, events (k a) = []) -> events (bind c k) = [].
Proof.
  intros Hc Hk. rewrite events_bind, Hc. simpl.
  destruct (result c); [apply Hk | reflexivity].
Qed.

Lemma result_warn_if (w : bool) (e : event) : result (warn_if w e) = Return tt.
Proof. now destruct w. Qed.

Section render_more.

Variable identifiers : string * string.

Lemma replace_placeholder_result (w w' : bool) (t : string) (r : options)
    (placeholder : string) :
  result (replace_placeholder identifiers w t r placeholder)
  = result (replace_placeholder identifiers w' t r placeholder).
Proof.
  unfold replace_placeholder. destruct r as [| | m]; try reflexivity.
  destruct (m !! _); [reflexivity |].
  now rewrite !(result_bind _ _ tt) by apply result_warn_if.
Qed.

Lemma replace_matches_result (w w' : bool) (t : string) (r : options)
    (s : string) (skip : nat) :
  result (replace_matches identifiers w t r s skip)
  = result (replace_matches identifiers w' t r s skip).
Proof.
  revert skip. induction s as [| c s IH]; intros skip; [reflexivity |].
  simpl. destruct skip as [| k]; [| apply IH].
  destruct (match_here identifiers (String c s)) as [placeholder |].
  - apply result_bind_congr; [apply replace_placeholder_result |].
    intros a. apply result_bind_congr; [apply IH | reflexivity].
  - apply result_bind_congr; [apply IH | reflexivity].
Qed.

Lemma replace_result (w w' : bool) (v : value) (r : options) :
  result (replace identifiers w v r) = result (replace identifiers w' v r).
Proof.
  destruct v; try reflexivity. simpl.
  apply result_bind_congr; [apply replace_matches_result | reflexivity].
Qed.

Lemma map_M_result {A B} (f g : A -> M B) (l : list A) :
  (forall x, result (f x) = result (g x)) ->
  result (map_M f l) = result (map_M g l).
Proof.
  intros H. induction l as [| x l IH]; [reflexivity |]. simpl.
  apply result_bind_congr; [apply H |]. intros y.
  apply result_bind_congr; [apply IH | reflexivity].
Qed.

Lemma resolvePlaceholders_result (w w' : bool) (v : value) (r : options) :
  result (resolvePlaceholders identifiers w v r)
  = result (resolvePlaceholders identifiers w' v r).
Proof.
  destruct v; try reflexivity.
  - apply replace_result.
  - simpl. apply result_bind_congr; [| reflexivity].
    apply map_M_result. intros x. apply replace_result.
Qed.

Lemma render_result (w w' : bool) (locale : option string) (v : value)
    (r : options) (p : value) :
  result (render identifiers w locale v r p)
  = result (render identifiers w' locale v r p).
Proof.
  unfold render.
  destruct p; try apply resolvePlaceholders_result;
    try (apply result_bind_congr;
         [now rewrite !result_warn_if
         | intros _; apply resolvePlaceholders_result]).
  apply result_bind_congr; [apply resolvePlaceholders_result |].
  intros resolved. apply result_bind_congr; [reflexivity |].
  intros pluralizations.
  destruct (item_at pluralizations _); try reflexivity.
  now rewrite !(result_bind _ _ tt) by apply result_warn_if.
Qed.

Lemma replace_matches_silent (t : string) (r : options) (s : string) (skip : nat) :
  events (replace_matches identifiers false t r s skip) = [].
Proof.
  revert skip. induction s as [| c s IH]; intros skip; [reflexivity |].
  simpl. destruct skip as [| k]; [| apply IH].
  destruct (match_here identifiers (String c s)) as [placeholder |].
  - apply events_bind_nil.
    + unfold replace_placeholder. destruct r as [| | m]; try reflexivity.
      now destruct (m !! _).
    + intros a. apply events_bind_nil; [apply IH | reflexivity].
  - apply events_bind_nil; [apply IH | reflexivity].
Qed.

Lemma replace_silent (v : value) (r : options) :
  events (replace identifiers false v r) = [].
Proof.
  destruct v; try reflexivity; simpl.
  - apply events_bind_nil; [apply replace_matches_silent | reflexivity].
  - now destruct (truthy _).
Qed.

Lemma map_M_silent {A B} (f : A -> M B) (l : list A) :
  (forall x, events (f x) = []) -> events (map_M f l) = [].
Proof.
  intros H. induction l as [| x l IH]; [reflexivity |]. simpl.
  apply events_bind_nil; [apply H |]. intros y.
  apply events_bind_nil; [apply IH | reflexivity].
Qed.

Lemma resolvePlaceholders_silent (v : value) (r : options) :
  events (resolvePlaceholders identifiers false v r) = [].
Proof.
  destruct v; try reflexivity.
  - apply replace_silent.
  - simpl. apply events_bind_nil; [| reflexivity].
    apply map_M_silent. intros x. apply replace_silent.
Qed.

Lemma call_trim_silent (v : value) : events (call_trim v) = [].
Proof. now destruct v. Qed.

Lemma render_silent (locale : option string) (v : value) (r : options) (p : value) :
  events (render identifiers false locale v r p) = [].
Proof.
  unfold render.
  destruct p; try apply resolvePlaceholders_silent;
    try (apply events_bind_nil;
         [reflexivity | intros _; apply resolvePlaceholders_silent]).
  apply events_bind_nil; [apply resolvePlaceholders_silent |].
  intros resolved. apply events_bind_nil.
  - destruct resolved as [| | | | | [| ? ?] |]; reflexivity.
  - intros pluralizations.
    destruct (item_at pluralizations _); try apply call_trim_silent.
    apply events_bind_nil; [reflexivity | intros _; apply call_trim_silent].
Qed.

End render_more.

(** X10: the notices are advisory: what [render] returns, or that it throws,
    does not depend on the [warnings] option. *)
Theorem render_result_ignores_warnings (identifiers : string * string)
    (w w' : bool) (locale : option string) (translation : value)
    (replacements : options) (pluralization : value) :
  result (render identifiers w locale translation replacements pluralization)
  = result (render identifiers w' locale translation replacements pluralization).
Proof. apply render_result. Qed.

(** X11: with the [warnings] option off, [render] emits no notice at all. *)
Theorem render_without_warnings_is_silent (identifiers : string * string)
    (locale : option string) (translation : value)
    (replacements : options) (pluralization : value) :
  events (render identifiers false locale translation replacements pluralization)
  = [].
Proof. apply render_silent. Qed.




Section render_strings.

Variable identifiers : string * string.
Variable w : bool.




End render_strings.





Lemma bind_assoc {A B C} (c : M A) (k : A -> M B) (k' : B -> M C) :
  bind (bind c k) k' = bind c (fun a => bind (k a) k').
Proof.
  destruct c as [es [a |]]; simpl; [| reflexivity].
  destruct (k a) as [es' [b |]]; simpl; [| reflexivity].
  destruct (k' b) as [es'' r]. now rewrite app_assoc.
Qed.

Lemma prefix_char (a b : ascii) (s : string) :
  String.prefix (String a "") (String b s) = true <-> a = b.
Proof.
  simpl. destruct (ascii_dec a b) as [-> | Hne].
  - split; [reflexivity |]. now destruct s.
  - split; [discriminate | congruence].
Qed.

Lemma word_char (c : ascii) :
  is_word c = true ->
  c <> "{"%char /\ c <> "}"%char /\ is_line_terminator c = false.
Proof.
  destruct c as [[] [] [] [] [] [] [] []]; vm_compute; intros H;
    repeat split; congruence.
Qed.

Section no_delimiter.

Variable identifiers : string * string.
Variable w : bool.

Lemma match_here_no_prefix (s : string) :
  String.prefix (fst identifiers) s = false -> match_here identifiers s = None.
Proof. unfold match_here. now intros ->. Qed.

Lemma replace_matches_no_delimiter (t : string) (r : options) (s : string) :
  occurs (fst identifiers) s = false ->
  replace_matches identifiers w t r s 0 = ret s.
Proof.
  induction s as [| c s IH]; [reflexivity |].
  intros H. cbn [occurs] in H. apply orb_false_iff in H as [Hc Hs].
  cbn [replace_matches].
  now rewrite (match_here_no_prefix _ Hc), (IH Hs), bind_ret_l.
Qed.

End no_delimiter.

(** X14: with delimiters that the regular expression reads as the literal
    text they are, a string in which the opening delimiter does not occur is
    rendered as it is, without a notice, whatever the options, [null]
    included. *)
Theorem render_without_placeholder (identifiers : string * string) (w : bool)
    (locale : option string) (s : string) (opts : options) :
  literal_delimiter (fst identifiers) = true ->
  literal_delimiter (snd identifiers) = true ->
  occurs (fst identifiers) s = false ->
  render identifiers w locale (JStr s) opts JNull = ret (JStr s).
Proof.
  intros _ _ H. unfold render. cbv zeta iota beta. simpl resolvePlaceholders.
  now rewrite (replace_matches_no_delimiter _ _ _ _ _ H), bind_ret_l.
Qed.

Lemma render_without_placeholder_witness :
  render ("{", "}") true (Some "en") (JStr "plain }text") NullOptions JNull
  = ret (JStr "plain }text")
  /\ render ("<%", "%>") true (Some "en") (JStr "a < b %> c") NullOptions JNull
     = ret (JStr "a < b %> c").
Proof.
  split.
  - now apply (render_without_placeholder ("{", "}") true).
  - now apply (render_without_placeholder ("<%", "%>") true).
Defined.

Section default_identifiers.

Variable w : bool.

Let braces : string * string := ("{", "}").

Lemma replace_matches_before (t : string) (r : options) (pre rest : string) :
  occurs "{" pre = false ->
  replace_matches braces w t r (pre +:+ rest) 0
  = (rest' <- replace_matches braces w t r rest 0 ;; ret (pre +:+ rest')).
Proof.
  intros Hpre. induction pre as [| c pre IH].
  - simpl. symmetry. apply bind_ret_r.
  - cbn [occurs] in Hpre. apply orb_false_iff in Hpre as [Hc Hpre].
    change (String c pre +:+ rest) with (String c (pre +:+ rest)).
    cbn [replace_matches].
    rewrite match_here_no_prefix.
    + rewrite (IH Hpre), bind_assoc. apply bind_ext. intros rest'.
      now rewrite bind_ret_l.
    + apply not_true_is_false. intros E.
      apply (prefix_char "{" c) in E. subst c.
      assert (String.prefix "{" (String "{" pre) = true)
        by now apply prefix_char.
      congruence.
Qed.

Lemma replace_matches_skip (t : string) (r : options) (a post : string) :
  replace_matches braces w t r (a +:+ post) (String.length a)
  = replace_matches braces w t r post 0.
Proof.
  induction a as [| c a IH]; [now destruct post |].
  exact IH.
Qed.

Lemma lazy_any_word (name post : string) :
  all_word name = true ->
  lazy_any braces (name +:+ String "}" post) = Some (name +:+ "}").
Proof.
  induction name as [| c name IH]; intros H.
  - simpl. now destruct post.
  - cbn [all_word] in H. apply andb_true_iff in H as [Hc H].
    apply word_char in Hc as (_ & Hc & Hl).
    change (String c name +:+ String "}" post)
      with (String c (name +:+ String "}" post)).
    cbn [lazy_any].
    assert (E : String.prefix (snd braces) (String c (name +:+ String "}" post))
                = false).
    { apply not_true_is_false. intros E.
      apply (prefix_char "}" c) in E. congruence. }
    now rewrite E, Hl, (IH H).
Qed.

Lemma match_here_word (name post : string) :
  name <> "" -> all_word name = true ->
  match_here braces (String "{" (name +:+ String "}" post))
  = Some (String "{" (name +:+ "}")).
Proof.
  intros Hne H. destruct name as [| c name]; [congruence |].
  cbn [all_word] in H. apply andb_true_iff in H as [Hc H].
  unfold match_here.
  assert (E0 : String.prefix (fst braces)
                 (String "{" (String c name +:+ String "}" post)) = true)
    by now apply prefix_char.
  rewrite E0. simpl string_drop.
  change (String c name +:+ String "}" post)
    with (String c (name +:+ String "}" post)).
  cbv iota. rewrite Hc.
  destruct name as [| d name].
  - simpl. now destruct post.
  - cbn [all_word] in H. apply andb_true_iff in H as [Hd H].
    apply word_char in Hd as (_ & Hd & Hl).
    change (String d name +:+ String "}" post)
      with (String d (name +:+ String "}" post)).
    assert (E : String.prefix (snd braces) (String d (name +:+ String "}" post))
                = false).
    { apply not_true_is_false. intros E.
      apply (prefix_char "}" d) in E. congruence. }
    rewrite E, Hl, (lazy_any_word name post H). reflexivity.
Qed.

Lemma remove_first_close (name : string) :
  all_word name = true -> remove_first "}" (name +:+ "}") = name.
Proof.
  induction name as [| c name IH]; intros H; [reflexivity |].
  cbn [all_word] in H. apply andb_true_iff in H as [Hc H].
  apply word_char in Hc as (_ & Hc & _).
  change (String c name +:+ "}") with (String c (name +:+ "}")).
  cbn [remove_first].
  assert (E : String.prefix "}" (String c (name +:+ "}")) = false).
  { apply not_true_is_false. intros E.
    apply (prefix_char "}" c) in E. congruence. }
  now rewrite E, (IH H).
Qed.

Lemma placeholder_key (name : string) :
  all_word name = true ->
  remove_first (snd braces) (remove_first (fst braces) (String "{" (name +:+ "}")))
  = name.
Proof.
  intros H.
  assert (E : remove_first (fst braces) (String "{" (name +:+ "}")) = name +:+ "}").
  { simpl. now destruct (name +:+ "}"). }
  rewrite E. now apply remove_first_close.
Qed.

Lemma replace_matches_placeholder (t : string) (r : gmap string string)
    (name post : string) :
  name <> "" -> all_word name = true ->
  replace_matches braces w t (Replacements r)
    (String "{" (name +:+ String "}" post)) 0
  = (x <- match r !! name with
          | Some replacement => ret replacement
          | None =>
              warn_if w (WarnPlaceholder t (String "{" (name +:+ "}"))) ;;;
              ret (String "{" (name +:+ "}"))
          end ;;
     rest <- replace_matches braces w t (Replacements r) post 0 ;;
     ret (x +:+ rest)).
Proof.
  intros Hne H. cbn [replace_matches].
  rewrite (match_here_word name post Hne H).
  unfold replace_placeholder. rewrite (placeholder_key name H).
  assert (El : (String.length (String "{" (name +:+ "}")) - 1)%nat
               = String.length (name +:+ "}")) by (simpl; lia).
  rewrite El.
  assert (Ea : name +:+ String "}" post = (name +:+ "}") +:+ post).
  { clear. induction name as [| c name IH]; [reflexivity |].
    change (String c (name +:+ String "}" post)
            = String c ((name +:+ "}") +:+ post)).
    now rewrite IH. }
  rewrite Ea, replace_matches_skip. reflexivity.
Qed.

End default_identifiers.

(** X15: with the delimiters [{] and [}], a placeholder [{name}] whose name
    is made of word characters and is not [__proto__] is replaced by the
    replacement given for [name], and the text around it, in which no [{]
    occurs, is kept.  Without a replacement for [name], and [name] not being
    one of the names every object answers to by inheritance, the text is
    returned as it is, with the notice of the missing placeholder (when
    warnings are on). *)
Theorem render_replaces_named_placeholder (w : bool) (locale : option string)
    (pre name post : string) (r : gmap string string) :
  name <> "" -> all_word name = true -> name <> "__proto__" ->
  occurs "{" pre = false -> occurs "{" post = false ->
  let text := pre +:+ String "{" (name +:+ String "}" post) in
  (forall x, r !! name = Some x ->
     render ("{", "}") w locale (JStr text) (Replacements r) JNull
     = ret (JStr (pre +:+ x +:+ post)))
  /\ (r !! name = None -> name ∉ object_prototype_members ->
      render ("{", "}") w locale (JStr text) (Replacements r) JNull
      = (warn_if w (WarnPlaceholder text (String "{" (name +:+ "}"))) ;;;
         ret (JStr text))).
Proof.
  intros Hne Hw _ Hpre Hpost text.
  assert (E : render ("{", "}") w locale (JStr text) (Replacements r) JNull
              = (s' <- replace_matches ("{", "}") w text (Replacements r) text 0 ;;
                 ret (JStr s'))) by reflexivity.
  rewrite E. unfold text at 2 4.
  rewrite replace_matches_before by exact Hpre.
  rewrite (replace_matches_placeholder w text r name post Hne Hw).
  rewrite (replace_matches_no_delimiter ("{", "}") w text (Replacements r) post Hpost).
  split.
  - intros x ->. now rewrite !bind_ret_l.
  - intros -> _.
    assert (Et : pre +:+ String "{" (name +:+ "}") +:+ post = text).
    { unfold text. f_equal.
      change (String "{" ((name +:+ "}") +:+ post)
              = String "{" (name +:+ String "}" post)).
      f_equal. clear. induction name as [| c name IH]; [reflexivity |].
      change (String c ((name +:+ "}") +:+ post)
              = String c (name +:+ String "}" post)).
      now rewrite IH. }
    destruct w; unfold warn_if, emit, ret, bind; simpl; now rewrite Et.
Qed.

Lemma render_replaces_named_placeholder_witness :
  render ("{", "}") true (Some "en") (JStr "Hello {name}!")
    (Replacements {[ "name" := "Ada" ]}) JNull
  = ret (JStr "Hello Ada!")
  /\ render ("{", "}") true (Some "en") (JStr "Hello {name}!")
       (Replacements ∅) JNull
     = ([WarnPlaceholder "Hello {name}!" "{name}"], Return (JStr "Hello {name}!")).
Proof.
  pose proof (render_replaces_named_placeholder true (Some "en")
                "Hello " "name" "!" {[ "name" := "Ada" ]}
                ltac:(discriminate) eq_refl ltac:(discriminate) eq_refl eq_refl)
    as [Hsome _].
  pose proof (render_replaces_named_placeholder true (Some "en")
                "Hello " "name" "!" ∅
                ltac:(discriminate) eq_refl ltac:(discriminate) eq_refl eq_refl)
    as [_ Hnone].
  split.
  - apply (Hsome "Ada"). reflexivity.
  - refine (eq_trans (Hnone (lookup_empty _) _) eq_refl).
    apply (bool_decide_unpack _). vm_compute. exact I.
Defined.

(** ** The store, further *)

Lemma hasOwnProperty_false {A} (obj : gmap string A) (key : string) :
  hasOwnProperty obj key = false <-> obj !! key = None.
Proof.
  unfold hasOwnProperty. rewrite bool_decide_eq_false.
  rewrite <- eq_None_not_Some. reflexivity.
Qed.

(** X16: for a tree none of whose mappings has a property named
    [hasOwnProperty] and a locale other than [__proto__], on a table that
    holds no locale named [hasOwnProperty], [ADD_LOCALE] does not throw and
    merges: in the entry of the locale every key of the flattened tree holds
    the tree's value, every other key holds what it held before; the entries
    of the other locales, the active locale and the fallback locale are as
    before.  For a tree with such a property it throws. *)
Theorem ADD_LOCALE_merges (st : state) (L : string) (tree : value) :
  (flattenable tree = true -> L <> "__proto__" -> plain_table st ->
   exists flat st' entry',
     result (flattenTranslations tree) = Return flat
     /\ result (mutations.ADD_LOCALE st L tree) = Return st'
     /\ locale st' = locale st
     /\ fallback st' = fallback st
     /\ (forall L', L' <> L -> translations st' !! L' = translations st !! L')
     /\ translations st' !! L = Some entry'
     /\ (forall k v, flat !! k = Some v -> entry' !! k = Some v)
     /\ (forall k, flat !! k = None ->
           entry' !! k = (translations st !!! L) !! k))
  /\ (flattenable tree = false ->
      result (mutations.ADD_LOCALE st L tree) = ThrowTypeError).
Proof.
  split.
  - intros Hplain HL' _.
    destruct (flattenTranslations_returns tree Hplain) as [flat Hflat].
    unfold mutations.ADD_LOCALE.
    destruct (hasOwnProperty (translations st) L) eqn:HL.
    + eexists flat, _, (flat ∪ translations st !!! L).
      split; [exact Hflat |].
      split; [rewrite (result_bind _ _ _ Hflat); reflexivity |].
      simpl. rewrite assign_other by exact HL'. repeat split.
      * intros L' Hne. now apply lookup_insert_ne.
      * apply lookup_insert_eq.
      * intros k v Hk. now apply lookup_union_Some_l.
      * intros k Hk. now apply lookup_union_r.
    + eexists flat, _, flat.
      split; [exact Hflat |].
      split; [rewrite (result_bind _ _ _ Hflat); reflexivity |].
      simpl. rewrite assign_other by exact HL'. repeat split.
      * intros L' Hne. now apply lookup_insert_ne.
      * apply lookup_insert_eq.
      * auto.
      * intros k Hk. apply hasOwnProperty_false in HL.
        rewrite Hk. unfold lookup_total, map_lookup_total. rewrite HL. simpl.
        symmetry. apply lookup_empty.
  - intros Hplain. unfold mutations.ADD_LOCALE.
    apply result_bind_throw. now apply flattenTranslations_throws.
Qed.

Lemma ADD_LOCALE_merges_witness :
  (exists st' entry',
      result (mutations.ADD_LOCALE
                {| locale := Some "en"; fallback := None;
                   translations := {[ "en" := {[ "a" := JStr "old";
                                                 "b" := JStr "kept" ]} ]} |}
                "en" (JObj [("a", JStr "new")])) = Return st'
      /\ translations st' !! "en" = Some entry'
      /\ entry' !! "a" = Some (JStr "new")
      /\ entry' !! "b" = Some (JStr "kept"))
  /\ result (mutations.ADD_LOCALE initial_state "en"
               (JObj [("hasOwnProperty", JStr "x")])) = ThrowTypeError.
Proof.
  split.
  - destruct (proj1 (ADD_LOCALE_merges
                       {| locale := Some "en"; fallback := None;
                          translations := {[ "en" := {[ "a" := JStr "old";
                                                        "b" := JStr "kept" ]} ]} |}
                       "en" (JObj [("a", JStr "new")]))
                eq_refl ltac:(discriminate) eq_refl)
      as (flat & st' & entry' & Hflat & Hadd & _ & _ & _ & Hentry & Hnew & Hold).
    assert (E : result (flattenTranslations (JObj [("a", JStr "new")]))
                = Return {[ "a" := JStr "new" ]}) by (vm_compute; reflexivity).
    rewrite E in Hflat. injection Hflat as <-.
    exists st', entry'. split; [exact Hadd |]. split; [exact Hentry |].
    split; [apply Hnew; reflexivity |].
    rewrite Hold by reflexivity. reflexivity.
  - now apply (proj2 (ADD_LOCALE_merges initial_state "en"
                        (JObj [("hasOwnProperty", JStr "x")]))).
Defined.

(** X17: for a tree none of whose mappings has a property named
    [hasOwnProperty] and a locale other than [__proto__], [REPLACE_LOCALE]
    does not throw and supersedes: the entry of the locale becomes the
    flattened tree and keeps nothing of what it held, the rest of the state
    is as before.  For a locale that has no entry yet, on a table that holds
    no locale named [hasOwnProperty], [ADD_LOCALE] does the same as
    [REPLACE_LOCALE]. *)
Theorem REPLACE_LOCALE_supersedes (st : state) (L : string) (tree : value) :
  (flattenable tree = true -> L <> "__proto__" ->
   exists flat,
      result (flattenTranslations tree) = Return flat
      /\ result (mutations.REPLACE_LOCALE st L tree)
         = Return {| locale := locale st;
                     fallback := fallback st;
                     translations := <[L := flat]> (translations st) |})
  /\ (plain_table st -> translations st !! L = None ->
      mutations.ADD_LOCALE st L tree = mutations.REPLACE_LOCALE st L tree).
Proof.
  split.
  - intros Hplain HL'.
    destruct (flattenTranslations_returns tree Hplain) as [flat Hflat].
    exists flat. split; [exact Hflat |].
    unfold mutations.REPLACE_LOCALE.
    now rewrite (result_bind _ _ _ Hflat), assign_other by exact HL'.
  - intros _ HL. apply hasOwnProperty_false in HL.
    unfold mutations.ADD_LOCALE, mutations.REPLACE_LOCALE. now rewrite HL.
Qed.

Lemma REPLACE_LOCALE_supersedes_witness :
  (exists flat,
      result (flattenTranslations (JObj [("k", JStr "v")])) = Return flat
      /\ result (mutations.REPLACE_LOCALE initial_state "en" (JObj [("k", JStr "v")]))
         = Return {| locale := None; fallback := None;
                     translations := <["en" := flat]> ∅ |})
  /\ mutations.ADD_LOCALE initial_state "en" (JObj [("k", JStr "v")])
     = mutations.REPLACE_LOCALE initial_state "en" (JObj [("k", JStr "v")]).
Proof.
  split.
  - apply (proj1 (REPLACE_LOCALE_supersedes initial_state "en"
                    (JObj [("k", JStr "v")])));
      [reflexivity | discriminate].
  - apply (proj2 (REPLACE_LOCALE_supersedes initial_state "en"
                    (JObj [("k", JStr "v")]))); reflexivity.
Defined.

(** X18: adding a locale that has no entry (its name neither [__proto__]
    nor [hasOwnProperty], the tree without a property named
    [hasOwnProperty], the table without a locale of that name) and removing
    it again gives the table back; the fallback locale is untouched, and the
    active locale is reset when it is the removed locale. *)
Theorem ADD_then_REMOVE (st : state) (L : string) (tree : value) :
  flattenable tree = true ->
  L <> "__proto__" -> L <> "hasOwnProperty" -> plain_table st ->
  translations st !! L = None ->
  exists st',
    result (mutations.ADD_LOCALE st L tree) = Return st'
    /\ translations (mutations.REMOVE_LOCALE st' L) = translations st
    /\ fallback (mutations.REMOVE_LOCALE st' L) = fallback st
    /\ locale (mutations.REMOVE_LOCALE st' L)
       = if bool_decide (locale st = Some L) then None else locale st.
Proof.
  intros Hplain Hp _ _ HL.
  destruct (flattenTranslations_returns tree Hplain) as [flat Hflat].
  pose proof HL as HL'. apply hasOwnProperty_false in HL'.
  unfold mutations.ADD_LOCALE. rewrite HL'.
  eexists. split; [rewrite (result_bind _ _ _ Hflat); reflexivity |].
  unfold mutations.REMOVE_LOCALE. simpl translations.
  rewrite assign_other by exact Hp.
  assert (E : hasOwnProperty (<[L := flat]> (translations st)) L = true).
  { apply hasOwnProperty_true. rewrite lookup_insert_eq. eauto. }
  rewrite E. simpl. repeat split.
  now rewrite delete_insert_eq, delete_id.
Qed.

Lemma ADD_then_REMOVE_witness :
  exists st',
    result (mutations.ADD_LOCALE initial_state "en" (JObj [("k", JStr "v")]))
    = Return st'
    /\ translations (mutations.REMOVE_LOCALE st' "en") = ∅.
Proof.
  destruct (ADD_then_REMOVE initial_state "en" (JObj [("k", JStr "v")])
              eq_refl ltac:(discriminate) ltac:(discriminate) eq_refl eq_refl)
    as (st' & Hadd & Htr & _).
  exists st'. split; [exact Hadd | exact Htr].
Defined.



(** X20: on a table that holds no locale named [hasOwnProperty], for a
    locale named neither [__proto__] nor [hasOwnProperty] and a tree none of
    whose mappings has a property named [hasOwnProperty]: after [addLocale]
    and after [replaceLocale] the locale exists; neither changes whether
    another locale exists, nor does [removeLocale]. *)
Theorem localeExists_after_requests (st : state) (L : string) (tree : value) :
  flattenable tree = true ->
  L <> "__proto__" -> L <> "hasOwnProperty" -> plain_table st ->
  (exists st', result (addLocale st L tree) = Return st'
               /\ checkLocaleExists st' L = true
               /\ forall L', L' <> L ->
                    checkLocaleExists st' L' = checkLocaleExists st L')
  /\ (exists st', result (replaceLocale st L tree) = Return st'
                  /\ checkLocaleExists st' L = true
                  /\ forall L', L' <> L ->
                       checkLocaleExists st' L' = checkLocaleExists st L')
  /\ (forall L', L' <> L ->
        checkLocaleExists (removeLocale st L) L' = checkLocaleExists st L').
Proof.
  intros Hplain Hp _ _.
  destruct (flattenTranslations_returns tree Hplain) as [flat Hflat].
  unfold addLocale, replaceLocale, removeLocale, checkLocaleExists, hasOwnProperty.
  split; [| split].
  - unfold mutations.ADD_LOCALE. fold (hasOwnProperty (translations st) L).
    destruct (hasOwnProperty (translations st) L);
      (eexists; split; [rewrite (result_bind _ _ _ Hflat); reflexivity |]);
      simpl; rewrite assign_other by exact Hp;
      (split; [now rewrite lookup_insert_eq |]);
      intros L' Hne; now rewrite lookup_insert_ne.
  - unfold mutations.REPLACE_LOCALE.
    eexists; split; [rewrite (result_bind _ _ _ Hflat); reflexivity |].
    simpl. rewrite assign_other by exact Hp.
    split; [now rewrite lookup_insert_eq |].
    intros L' Hne. now rewrite lookup_insert_ne.
  - intros L' Hne. unfold mutations.REMOVE_LOCALE.
    fold (hasOwnProperty (translations st) L).
    destruct (hasOwnProperty (translations st) L); [| reflexivity].
    simpl. now rewrite lookup_delete_ne.
Qed.

Lemma localeExists_after_requests_witness :
  exists st',
    result (addLocale initial_state "en" (JObj [("k", JStr "v")])) = Return st'
    /\ checkLocaleExists st' "en" = true
    /\ checkLocaleExists st' "de" = false.
Proof.
  destruct (localeExists_after_requests initial_state "en" (JObj [("k", JStr "v")])
              eq_refl ltac:(discriminate) ltac:(discriminate) eq_refl)
    as ((st' & Hadd & Hen & Hother) & _).
  exists st'. split; [exact Hadd |]. split; [exact Hen |].
  now rewrite Hother.
Defined.

(** ** Lookups, further *)

Lemma events_bind_Forall {A B} (P : event -> Prop) (c : M A) (k : A -> M B) :
  Forall P (events c) -> (forall a, Forall P (events (k a))) ->
  Forall P (events (bind c k)).
Proof.
  intros Hc Hk. rewrite events_bind. apply Forall_app. split; [exact Hc |].
  destruct (result c); [apply Hk | constructor].
Qed.

Section notices.

Variable identifiers : string * string.
Variable w : bool.

Lemma warn_if_notice (e : event) : is_notice e = true -> only_notices (warn_if w e).
Proof.
  intros H. destruct w; [constructor; [exact H | constructor] | constructor].
Qed.

Lemma replace_matches_only_notices (t : string) (r : options) (s : string) (skip : nat) :
  only_notices (replace_matches identifiers w t r s skip).
Proof.
  revert skip. induction s as [| c s IH]; intros skip; [constructor |].
  simpl. destruct skip as [| k]; [| apply IH].
  destruct (match_here identifiers (String c s)) as [placeholder |].
  - apply events_bind_Forall.
    + unfold replace_placeholder. destruct r as [| | m]; try constructor.
      destruct (m !! _); [constructor |].
      apply events_bind_Forall; [now apply warn_if_notice | constructor].
    + intros a. apply events_bind_Forall; [apply IH | constructor].
  - apply events_bind_Forall; [apply IH | constructor].
Qed.

Lemma replace_only_notices (v : value) (r : options) :
  only_notices (replace identifiers w v r).
Proof.
  destruct v; try constructor; simpl.
  - apply events_bind_Forall; [apply replace_matches_only_notices | constructor].
  - destruct (truthy _); constructor.
Qed.

Lemma resolvePlaceholders_only_notices (v : value) (r : options) :
  only_notices (resolvePlaceholders identifiers w v r).
Proof.
  destruct v; try constructor.
  - apply replace_only_notices.
  - simpl. apply events_bind_Forall; [| constructor].
    induction items as [| x items IH]; [constructor |]. simpl.
    apply events_bind_Forall; [apply replace_only_notices |]. intros y.
    apply events_bind_Forall; [apply IH | constructor].
Qed.

Lemma call_trim_only_notices (v : value) : only_notices (call_trim v).
Proof. destruct v; constructor. Qed.

Lemma render_only_notices (locale : option string) (v : value) (r : options) (p : value) :
  only_notices (render identifiers w locale v r p).
Proof.
  unfold render.
  destruct p; try apply resolvePlaceholders_only_notices;
    try (apply events_bind_Forall;
         [now apply warn_if_notice | intros _; apply resolvePlaceholders_only_notices]).
  apply events_bind_Forall; [apply resolvePlaceholders_only_notices |].
  intros resolved. apply events_bind_Forall.
  - destruct resolved as [| | | | | [| ? ?] |]; constructor.
  - intros pluralizations.
    destruct (item_at pluralizations _); try apply call_trim_only_notices.
    apply events_bind_Forall;
      [now apply warn_if_notice | intros _; apply call_trim_only_notices].
Qed.

End notices.

Section lookup_more.

Variable cfg : config.

Lemma translateInLanguage_on_tiers (this : option config) (st : state)
    (locale key : string) (defaultValue : option string) (opts : options)
    (pluralization : value) :
  locale <> "" ->
  translateInLanguage_on cfg this st (Some locale) key defaultValue opts
    pluralization
  = if key_in (translations st) locale key then
      plugin_render cfg (Some locale) ((translations st !!! locale) !!! key)
        opts pluralization
    else
      match regional_parent locale with
      | Some parent =>
          if key_in (translations st) parent key then
            plugin_render cfg (Some parent)
              ((translations st !!! parent) !!! key) opts pluralization
          else not_found_path cfg st locale key
                 (match defaultValue with Some d => d | None => key end)
                 opts pluralization
      | None => not_found_path cfg st locale key
                  (match defaultValue with Some d => d | None => key end)
                  opts pluralization
      end.
Proof.
  intros Hne. unfold translateInLanguage_on.
  destruct locale as [| c l]; [congruence |].
  cbv zeta. rewrite exists_test.
  destruct (key_in (translations st) (String c l) key); [reflexivity |].
  rewrite regional_test. unfold regional_parent.
  now destruct (split "-" (String c l)) as [| parent [| region rest]].
Qed.

Lemma translateInLanguage_tiers (st : state) (locale key : string)
    (defaultValue : option string) (opts : options) (pluralization : value) :
  locale <> "" ->
  translateInLanguage cfg st (Some locale) key defaultValue opts pluralization
  = if key_in (translations st) locale key then
      plugin_render cfg (Some locale) ((translations st !!! locale) !!! key)
        opts pluralization
    else
      match regional_parent locale with
      | Some parent =>
          if key_in (translations st) parent key then
            plugin_render cfg (Some parent)
              ((translations st !!! parent) !!! key) opts pluralization
          else not_found_path cfg st locale key
                 (match defaultValue with Some d => d | None => key end)
                 opts pluralization
      | None => not_found_path cfg st locale key
                  (match defaultValue with Some d => d | None => key end)
                  opts pluralization
      end.
Proof. apply translateInLanguage_on_tiers. Qed.

End lookup_more.





(** X23: once the active locale has been removed, [translate] throws: it
    calls [translateInLanguage] on nothing, and the branch of the unset
    locale reads the configuration of the object it is called on.  Nothing
    is emitted before.  [translateInLanguage] called on the plugin with the
    locale of that state returns the default value (the key, when none was
    given) as it is, placeholders not replaced and no variant selected, with
    the notice that the locale is not set. *)
Theorem translate_after_removing_active_locale (cfg : config) (st : state)
    (L key : string) (defaultValue : option string) (opts : options)
    (pluralization : value) :
  plain_table st ->
  locale st = Some L ->
  is_Some (translations st !! L) ->
  translate cfg (removeLocale st L) key defaultValue opts pluralization
  = throw
  /\ translateInLanguage cfg (removeLocale st L) (locale (removeLocale st L))
       key defaultValue opts pluralization
     = (warn_if (warnings cfg) (WarnLocaleNotSet key) ;;;
        ret (JStr (match defaultValue with Some d => d | None => key end))).
Proof.
  intros _ Hl HL. apply hasOwnProperty_true in HL.
  unfold translate, translateInLanguage, removeLocale, mutations.REMOVE_LOCALE.
  rewrite HL. simpl locale.
  rewrite bool_decide_eq_true_2 by exact Hl. split; reflexivity.
Qed.

Lemma translate_after_removing_active_locale_witness :
  result (translate default_config
            (removeLocale {| locale := Some "de"; fallback := Some "en";
                             translations := {[ "de" := {[ "k" := JStr "v" ]};
                                                "en" := {[ "k" := JStr "w" ]} ]} |}
               "de")
            "k" (Some "Hi {name}") (Replacements {[ "name" := "Ada" ]})
            (JNum (Int 2)))
  = ThrowTypeError.
Proof.
  destruct (translate_after_removing_active_locale default_config
              {| locale := Some "de"; fallback := Some "en";
                 translations := {[ "de" := {[ "k" := JStr "v" ]};
                                    "en" := {[ "k" := JStr "w" ]} ]} |}
              "de" "k" (Some "Hi {name}") (Replacements {[ "name" := "Ada" ]})
              (JNum (Int 2))) as [Hthrow _].
  - vm_compute. reflexivity.
  - reflexivity.
  - eexists. reflexivity.
  - rewrite Hthrow. reflexivity.
Defined.


(** X25: with an active locale set, the not-found callback of [translate]
    fires exactly when [checkKeyExists] with scope ['locale'] is false: when
    the check is true, [translate] emits console notices only; when it is
    false, the first thing [translate] does is to report the key. *)
Theorem callback_iff_key_missing_in_locale (cfg : config) (st : state)
    (active key : string) (defaultValue : option string) (opts : options)
    (pluralization : value) :
  locale st = Some active -> active <> "" ->
  (checkKeyExists st key (Some "locale") = ret true ->
   only_notices (translate cfg st key defaultValue opts pluralization))
  /\ (checkKeyExists st key (Some "locale") = ret false ->
      exists es,
        events (translate cfg st key defaultValue opts pluralization)
        = TranslationNotFound active key
            (match defaultValue with Some d => d | None => key end) :: es).
Proof.
  intros Ha Hne.
  assert (Hc : checkKeyExists st key (Some "locale")
               = ret (key_in (translations st) active key
                      || match regional_parent active with
                         | Some p => key_in (translations st) p key
                         | None => false
                         end)).
  { unfold checkKeyExists. rewrite Ha. simpl prop_key.
    fold (key_in (translations st) active key).
    destruct (key_in (translations st) active key); [reflexivity |].
    simpl String.eqb. cbv iota. rewrite regional_test.
    now destruct (match regional_parent active with
                  | Some p => key_in (translations st) p key
                  | None => false
                  end). }
  rewrite Hc. unfold translate. rewrite Ha.
  rewrite (translateInLanguage_on_tiers cfg None st active key defaultValue opts
             pluralization Hne).
  assert (Hnf : forall d, exists es,
             events (not_found_path cfg st active key d opts pluralization)
             = TranslationNotFound active key d :: es).
  { intros d. unfold not_found_path. rewrite events_bind. simpl. eauto. }
  destruct (key_in (translations st) active key).
  - split; [intros _; apply render_only_notices | discriminate].
  - destruct (regional_parent active) as [parent |].
    + destruct (key_in (translations st) parent key).
      * split; [intros _; apply render_only_notices | discriminate].
      * split; [discriminate | intros _; apply Hnf].
    + split; [discriminate | intros _; apply Hnf].
Qed.

Lemma callback_iff_key_missing_in_locale_witness :
  exists es,
    events (translate default_config
              {| locale := Some "de-CH"; fallback := Some "en";
                 translations := {[ "en" := {[ "k" := JStr "v" ]} ]} |}
              "k" None NoOptions JNull)
    = TranslationNotFound "de-CH" "k" "k" :: es.
Proof.
  apply (proj2 (callback_iff_key_missing_in_locale default_config
                  {| locale := Some "de-CH"; fallback := Some "en";
                     translations := {[ "en" := {[ "k" := JStr "v" ]} ]} |}
                  "de-CH" "k" None NoOptions JNull eq_refl ltac:(discriminate))).
  reflexivity.
Defined.

(** X26: for [translateInLanguage] too the notices are advisory: what it
    returns does not depend on the [warnings] option, and with the option off
    it emits no console notice, only the report of a key that was not found
    and the [addLocale] scheduled for it. *)
Theorem translateInLanguage_warnings_advisory (ids : string * string)
    (callback : string -> string -> string -> value) (w w' : bool)
    (st : state) (locale : option string) (key : string)
    (defaultValue : option string) (opts : options) (pluralization : value) :
  result (translateInLanguage (Config w ids callback) st locale key
            defaultValue opts pluralization)
  = result (translateInLanguage (Config w' ids callback) st locale key
              defaultValue opts pluralization)
  /\ Forall (fun e => is_notice e = false)
       (events (translateInLanguage (Config false ids callback) st locale key
                  defaultValue opts pluralization)).
Proof.
  assert (Hr : forall loc v,
             result (plugin_render (Config w ids callback) loc v opts pluralization)
             = result (plugin_render (Config w' ids callback) loc v opts pluralization)).
  { intros loc v. apply render_result. }
  assert (Hs : forall loc v,
             events (plugin_render (Config false ids callback) loc v opts pluralization)
             = []).
  { intros loc v. apply render_silent. }
  destruct locale as [[| c l] |].
  - split; [| repeat constructor]. simpl.
    now rewrite !(result_bind _ _ tt) by apply result_warn_if.
  - rewrite !translateInLanguage_tiers by discriminate.
    assert (Hnf : forall d,
               result (not_found_path (Config w ids callback) st (String c l) key d
                         opts pluralization)
               = result (not_found_path (Config w' ids callback) st (String c l) key d
                           opts pluralization)
               /\ Forall (fun e => is_notice e = false)
                    (events (not_found_path (Config false ids callback) st
                               (String c l) key d opts pluralization))).
    { intros d. unfold not_found_path. simpl onTranslationNotFound. split.
      - apply result_bind_congr; [reflexivity |]. intros _.
        apply result_bind_congr; [reflexivity |]. intros _.
        destruct (negb _); [apply Hr |]. destruct (negb _); apply Hr.
      - apply events_bind_Forall; [repeat constructor |]. intros _.
        apply events_bind_Forall.
        + destruct (truthy _); repeat constructor.
        + intros _. destruct (negb _); [rewrite Hs; constructor |].
          destruct (negb _); rewrite Hs; constructor. }
    destruct (key_in (translations st) (String c l) key).
    { split; [apply Hr | rewrite Hs; constructor]. }
    destruct (regional_parent (String c l)) as [parent |]; [| apply Hnf].
    destruct (key_in (translations st) parent key); [| apply Hnf].
    split; [apply Hr | rewrite Hs; constructor].
  - split; [| repeat constructor]. simpl.
    now rewrite !(result_bind _ _ tt) by apply result_warn_if.
Qed.

(** X27: what [addLocale] stores is what is translated.  For an object
    tree, a locale named neither [__proto__] nor [hasOwnProperty], and a
    table in which no locale and no key of the locale's entry is named
    [hasOwnProperty]: every key of the flattened tree is rendered, in the
    locale it was added to, from the tree's value; the locale exists, and
    when it is the active locale the key exists under the strictest
    scope. *)
Theorem added_translation_is_translated (cfg : config) (st : state)
    (L : string) (props : list (string * value)) (flat : gmap string value)
    (k : string) (v : value) (defaultValue : option string) (opts : options)
    (pluralization : value) :
  L <> "" -> L <> "__proto__" -> L <> "hasOwnProperty" ->
  plain_table st ->
  (translations st !!! L) !! "hasOwnProperty" = None ->
  result (flattenTranslations (JObj props)) = Return flat ->
  flat !! k = Some v ->
  exists st',
    result (addLocale st L (JObj props)) = Return st'
    /\ translateInLanguage cfg st' (Some L) k defaultValue opts pluralization
       = plugin_render cfg (Some L) v opts pluralization
    /\ checkLocaleExists st' L = true
    /\ (locale st = Some L -> checkKeyExists st' k (Some "strict") = ret true).
Proof.
  intros Hne Hp _ _ _ Hflat Hk.
  assert (exists st' entry',
             result (addLocale st L (JObj props)) = Return st'
             /\ locale st' = locale st
             /\ translations st' !! L = Some entry'
             /\ entry' !! k = Some v) as (st' & entry' & Hadd & Hloc & HL & Hv).
  { unfold addLocale, mutations.ADD_LOCALE.
    destruct (hasOwnProperty (translations st) L).
    - eexists _, (flat ∪ translations st !!! L).
      split; [rewrite (result_bind _ _ _ Hflat); reflexivity |].
      simpl. rewrite assign_other by exact Hp.
      split; [reflexivity |]. split; [apply lookup_insert_eq |].
      now apply lookup_union_Some_l.
    - eexists _, flat.
      split; [rewrite (result_bind _ _ _ Hflat); reflexivity |].
      simpl. rewrite assign_other by exact Hp.
      split; [reflexivity |]. split; [apply lookup_insert_eq | exact Hk]. }
  destruct (key_in_lookup _ _ _ _ _ HL Hv) as [Hin Hval].
  exists st'. split; [exact Hadd |]. split; [| split].
  - now rewrite (translateInLanguage_tiers cfg st' L k defaultValue opts
                   pluralization Hne), Hin, Hval.
  - apply hasOwnProperty_true. rewrite HL. eauto.
  - intros Ha. unfold checkKeyExists. rewrite Hloc, Ha. simpl prop_key.
    fold (key_in (translations st') L k). now rewrite Hin.
Qed.

Lemma added_translation_is_translated_witness :
  exists st',
    result (addLocale initial_state "en"
              (JObj [("menu", JObj [("open", JStr "Open {what}")])])) = Return st'
    /\ translateInLanguage default_config st' (Some "en") "menu.open" None
         (Replacements {[ "what" := "file" ]}) JNull
       = ([], Return (JStr "Open file")).
Proof.
  destruct (added_translation_is_translated default_config initial_state "en"
              [("menu", JObj [("open", JStr "Open {what}")])]
              {[ "menu.open" := JStr "Open {what}" ]}
              "menu.open" (JStr "Open {what}") None
              (Replacements {[ "what" := "file" ]}) JNull)
    as (st' & Hadd & Htr & _).
  - discriminate.
  - discriminate.
  - discriminate.
  - reflexivity.
  - reflexivity.
  - vm_compute. reflexivity.
  - reflexivity.
  - exists st'. split; [exact Hadd |]. rewrite Htr. reflexivity.
Defined.







